(** * SimpleVector: a shallow embedding of [include/simple_vector.h]

    The container is a record of an owned buffer, a logical size and a
    capacity.  Every member function is a function from the state of the
    object it is called on to an [outcome]: the new state, or the way the
    call fails (a failed [assert], a thrown [std::out_of_range], a failed
    allocation, an access outside the owned buffer, a loop that never
    ends).

    Conventions.
    - [size_t] is a [Z] in [0, 2^64); the two places where the code does
      arithmetic that may leave that range ([size_ + 1], [capacity_ * 2])
      wrap explicitly.  [int] is a [Z] in [-2^31, 2^31).
    - A buffer is the list of its slots; pointers into a buffer are
      offsets from its first slot.  Reading or writing outside the list is
      undefined behaviour ([UB]).
    - [assert] is checked (the header does not define [NDEBUG]).
    - Allocation fails for a request of more than [PTRDIFF_MAX] elements
      and succeeds for any other: running out of memory is not modelled.
    - An element move is a copy: what is left in a moved-from slot is not
      observed by any property below.
    - A freshly allocated slot holds a default-constructed element, whose
      value is not taken to be [Type()]: for a scalar element type it is
      indeterminate.  The slots the code assigns [Type()] to are thereby
      told from the slots it only allocates.
    - A reference parameter denotes an object outside the vector's buffer
      or a slot of the buffer; a slot of a buffer that has been freed
      must not be read.
    - Two objects that may alias (the operands of assignment, [swap] and
      [operator==]) are addresses into a store of vectors. *)

From stdpp Require Import base decidable option list gmap.
From Stdlib Require Import ZArith Lia.

Local Open Scope Z_scope.

(** ** Outcomes *)

Inductive outcome (A : Type) : Type :=
  | Ok (a : A)
  | AssertFail
  | OutOfRange
  | BadAlloc
  | UB
  | Diverges.

Arguments Ok {A} a.
Arguments AssertFail {A}.
Arguments OutOfRange {A}.
Arguments BadAlloc {A}.
Arguments UB {A}.
Arguments Diverges {A}.

Definition outcome_bind {A B : Type} (f : A → outcome B) (m : outcome A) : outcome B :=
  match m with
  | Ok a => f a
  | AssertFail => AssertFail
  | OutOfRange => OutOfRange
  | BadAlloc => BadAlloc
  | UB => UB
  | Diverges => Diverges
  end.

#[global] Instance outcome_mbind : MBind outcome := @outcome_bind.
#[global] Instance outcome_mret : MRet outcome := @Ok.

Definition is_Ok {A : Type} (m : outcome A) : Prop := ∃ a, m = Ok a.

(** [assert(c)] *)
Definition assert (c : bool) : outcome unit := if c then Ok tt else AssertFail.

(** ** Machine integers *)

Definition SIZE_MAX : Z := 2 ^ 64 - 1.

(** Arithmetic on [size_t] is modulo 2^64. *)
Definition wrap (z : Z) : Z := z mod 2 ^ 64.

(** Conversion of a [ptrdiff_t] to [int] keeps the low 32 bits. *)
Definition to_int (z : Z) : Z := (z + 2 ^ 31) mod 2 ^ 32 - 2 ^ 31.

(** Conversion of an [int] to [size_t]. *)
Definition to_size_t (z : Z) : Z := wrap z.

Section Elements.

Context {T : Type}.

(** [Type()], the value-initialised element. *)
Variable Type_default : T.

(** The value of a freshly allocated element of an [ArrayPtr], as default
    construction leaves it; nothing relates it to [Type()]. *)
Variable Type_new : T.

(** [operator==] of the element type. *)
Variable Type_eq : T → T → bool.

(** ** Buffers *)

(** A buffer is the list of its slots. *)
Local Abbreviation buffer := (list T).

Definition load (b : buffer) (i : nat) : outcome T :=
  match b !! i with
  | Some x => Ok x
  | None => UB
  end.

Definition store (b : buffer) (i : nat) (x : T) : outcome buffer :=
  if decide (i < length b)%nat then Ok (<[i:=x]> b) else UB.

(** [std::move] and [std::copy]: assign the elements of the source range,
    first to last, to the slots starting at [d]; here between two
    buffers. *)
Fixpoint move_loop (n : nat) (src : buffer) (s : nat) (dst : buffer) (d : nat)
  : outcome buffer :=
  match n with
  | O => Ok dst
  | S k =>
      x ← load src s;
      dst' ← store dst d x;
      move_loop k src (S s) dst' (S d)
  end.

(** The same loop when source and destination are one buffer. *)
Fixpoint move_within (n : nat) (b : buffer) (s d : nat) : outcome buffer :=
  match n with
  | O => Ok b
  | S k =>
      x ← load b s;
      b' ← store b d x;
      move_within k b' (S s) (S d)
  end.

(** [std::fill], and the loops that assign [Type()] to each slot of a
    range. *)
Fixpoint fill_loop (n : nat) (b : buffer) (i : nat) (x : T) : outcome buffer :=
  match n with
  | O => Ok b
  | S k =>
      b' ← store b i x;
      fill_loop k b' (S i) x
  end.

(** [std::equal]: walk both ranges and return false at the first pair of
    elements that [operator==] tells apart, true when the first range is
    exhausted. *)
Fixpoint equal_loop (n : nat) (a : buffer) (i : nat) (b : buffer) (j : nat)
  : outcome bool :=
  match n with
  | O => Ok true
  | S k =>
      x ← load a i;
      y ← load b j;
      if Type_eq x y then equal_loop k a (S i) b (S j) else Ok false
  end.

(** The standard algorithms, on offsets.  A range whose end is before its
    start, or an offset before the buffer, is undefined behaviour. *)

Definition std_move (src : buffer) (first last : Z) (dst : buffer) (d_first : Z)
  : outcome buffer :=
  if decide (0 ≤ first ∧ first ≤ last ∧ 0 ≤ d_first)
  then move_loop (Z.to_nat (last - first)) src (Z.to_nat first) dst (Z.to_nat d_first)
  else UB.

Definition std_copy := std_move.

Definition std_move_within (b : buffer) (first last d_first : Z) : outcome buffer :=
  if decide (0 ≤ first ∧ first ≤ last ∧ 0 ≤ d_first)
  then move_within (Z.to_nat (last - first)) b (Z.to_nat first) (Z.to_nat d_first)
  else UB.

Definition std_fill (b : buffer) (first last : Z) (x : T) : outcome buffer :=
  if decide (0 ≤ first ∧ first ≤ last)
  then fill_loop (Z.to_nat (last - first)) b (Z.to_nat first) x
  else UB.

Definition std_equal (a : buffer) (first last : Z) (b : buffer) (first2 : Z)
  : outcome bool :=
  if decide (0 ≤ first ∧ first ≤ last ∧ 0 ≤ first2)
  then equal_loop (Z.to_nat (last - first)) a (Z.to_nat first) b (Z.to_nat first2)
  else UB.

(** [*p] and [*p = x] through a pointer at offset [i]. *)
Definition deref (b : buffer) (i : Z) : outcome T :=
  if decide (0 ≤ i) then load b (Z.to_nat i) else UB.

Definition assign_at (b : buffer) (i : Z) (x : T) : outcome buffer :=
  if decide (0 ≤ i) then store b (Z.to_nat i) x else UB.

(** ** The owned buffer, [ArrayPtr<Type>] *)

(** No array object holds more than [PTRDIFF_MAX] bytes, so a request for
    more elements than that fails on every implementation. *)
Definition max_alloc : Z := 2 ^ 63 - 1.

(** Modelled from the spec: [array_ptr.h] is not part of the sources.
    [ArrayPtr<Type>(n)] allocates storage for exactly [n] default-constructed
    elements ([n] may be 0, yielding the null buffer) and fails with an
    allocation error if memory cannot be obtained.  The value of those
    elements is unspecified to the user of the container: it is
    [Type_new], which need not be [Type()].  Memory is otherwise taken to
    be sufficient: a request fails exactly when it exceeds [max_alloc]. *)
Definition ArrayPtr_new (n : Z) : outcome buffer :=
  if decide (n ≤ max_alloc) then Ok (replicate (Z.to_nat n) Type_new) else BadAlloc.

(** Modelled from the spec: [Get()] of [array_ptr.h] returns the address of
    element 0, or the null handle if the buffer was created with 0
    elements.  [is_null b] is [b.Get() == nullptr]. *)
Definition is_null (b : buffer) : bool :=
  match b with
  | [] => true
  | _ :: _ => false
  end.

(** ** The container *)

Record SimpleVector : Type := mkSimpleVector {
  items_ : buffer;
  size_ : Z;
  capacity_ : Z
}.

(** [SimpleVector() noexcept = default] *)
Definition SimpleVector_default : SimpleVector :=
  {| items_ := []; size_ := 0; capacity_ := 0 |}.

Definition GetSize (v : SimpleVector) : Z := size_ v.
Definition GetCapacity (v : SimpleVector) : Z := capacity_ v.
Definition IsEmpty (v : SimpleVector) : bool := size_ v =? 0.

(** [begin()] and [end()] as offsets into [items_]. *)
Definition begin_ (v : SimpleVector) : Z := 0.
Definition end_ (v : SimpleVector) : Z := size_ v.

Definition Clear (v : SimpleVector) : SimpleVector :=
  {| items_ := items_ v; size_ := 0; capacity_ := capacity_ v |}.

(** [SimpleVector(size_t size, const Type& value)] *)
Definition SimpleVector_fill (size : Z) (value : T) : outcome SimpleVector :=
  if size >? 0 then
    temp ← ArrayPtr_new size;
    temp ← std_fill temp 0 size value;
    Ok {| items_ := temp; size_ := size; capacity_ := size |}
  else Ok {| items_ := []; size_ := size; capacity_ := size |}.

(** [explicit SimpleVector(size_t size)] *)
Definition SimpleVector_sized (size : Z) : outcome SimpleVector :=
  SimpleVector_fill size Type_default.

(** [SimpleVector(std::initializer_list<Type> init)] *)
Definition SimpleVector_init (init : list T) : outcome SimpleVector :=
  let n := Z.of_nat (length init) in
  if n >? 0 then
    temp ← ArrayPtr_new n;
    temp ← std_copy init 0 n temp 0;
    Ok {| items_ := temp; size_ := n; capacity_ := n |}
  else Ok {| items_ := []; size_ := n; capacity_ := n |}.

(** The loop of [Resize]:
    [while (new_size > capacity_) capacity_ = (capacity_ == 0) ? 1 : capacity_ * 2;] *)
Definition next_capacity (c : Z) : Z := if c =? 0 then 1 else wrap (c * 2).

Fixpoint grow_loop (fuel : nat) (new_size c : Z) : outcome Z :=
  if new_size >? c then
    match fuel with
    | O => Diverges
    | S f => grow_loop f new_size (next_capacity c)
    end
  else Ok c.

(** From any start the capacities met by the loop repeat after at most 129
    steps ([grow_loop_fuel] below), so a loop that has not stopped by then
    never stops. *)
Definition grow_fuel : nat := 130.

Definition grow_capacity (new_size c : Z) : outcome Z := grow_loop grow_fuel new_size c.

(** The capacity after [k] turns of the loop. *)
Definition orbit (k : nat) (c : Z) : Z := Nat.iter k next_capacity c.

Definition Resize (new_size : Z) (v : SimpleVector) : outcome SimpleVector :=
  if new_size >? size_ v then
    v1 ← (if new_size >? capacity_ v then
            c ← grow_capacity new_size (capacity_ v);
            temp ← ArrayPtr_new c;
            temp ← (if negb (is_null (items_ v))
                    then std_move (items_ v) (begin_ v) (end_ v) temp 0
                    else Ok temp);
            Ok {| items_ := temp; size_ := size_ v; capacity_ := c |}
          else Ok v);
    items ← std_fill (items_ v1) (begin_ v1 + size_ v1) (begin_ v1 + new_size) Type_default;
    Ok {| items_ := items; size_ := new_size; capacity_ := capacity_ v1 |}
  else Ok {| items_ := items_ v; size_ := new_size; capacity_ := capacity_ v |}.

Definition Reserve (new_capacity : Z) (v : SimpleVector) : outcome SimpleVector :=
  if new_capacity >? capacity_ v then
    temp ← ArrayPtr_new new_capacity;
    temp ← (if negb (begin_ v =? end_ v)
            then std_move (items_ v) 0 (capacity_ v) temp 0
            else Ok temp);
    temp ← std_fill temp (capacity_ v) new_capacity Type_default;
    Ok {| items_ := temp; size_ := size_ v; capacity_ := new_capacity |}
  else Ok v.

(** [SimpleVector(ReserveProxyObj capacity)] *)
Definition SimpleVector_reserved (capacity_to_reserve : Z) : outcome SimpleVector :=
  Reserve capacity_to_reserve SimpleVector_default.

(** What a parameter of type [const Type&] or [Type&&] refers to: an
    object that is not stored in the vector, or slot [i] of the buffer the
    vector owns when the member function is called. *)
Inductive reference : Type :=
  | Outside (x : T)
  | Slot (i : Z).

(** [Resize(new_size)] replaces the buffer, and thereby frees the one the
    vector owned, exactly when it takes its reallocating branch. *)
Definition reallocates (new_size : Z) (v : SimpleVector) : bool :=
  (new_size >? size_ v) && (new_size >? capacity_ v).

(** Reading through a reference after a [Resize]: a slot of a freed buffer
    must not be read; a slot of the buffer still owned is read as it is
    now. *)
Definition read_reference (r : reference) (freed : bool) (items : buffer) : outcome T :=
  match r with
  | Outside x => Ok x
  | Slot i => if freed then UB else deref items i
  end.

(** Both overloads of [PushBack]: [item] is read after [Resize]. *)
Definition PushBack (item : reference) (v : SimpleVector) : outcome SimpleVector :=
  v1 ← Resize (wrap (size_ v + 1)) v;
  x ← read_reference item (reallocates (wrap (size_ v + 1)) v) (items_ v1);
  items ← assign_at (items_ v1) (end_ v1 - 1) x;
  Ok {| items_ := items; size_ := size_ v1; capacity_ := capacity_ v1 |}.

Definition PopBack (v : SimpleVector) : outcome SimpleVector :=
  _ ← assert (size_ v >? 0);
  Ok {| items_ := items_ v; size_ := wrap (size_ v - 1); capacity_ := capacity_ v |}.

(** [Insert] returns the offset of the inserted element together with the
    new state; [value] is read after [Resize]. *)
Definition Insert (pos : Z) (value : reference) (v : SimpleVector)
  : outcome (Z * SimpleVector) :=
  if begin_ v =? end_ v then
    v1 ← Resize (wrap (size_ v + 1)) v;
    x ← read_reference value (reallocates (wrap (size_ v + 1)) v) (items_ v1);
    items ← assign_at (items_ v1) (begin_ v1) x;
    Ok (begin_ v1, {| items_ := items; size_ := size_ v1; capacity_ := capacity_ v1 |})
  else
    let p := pos in
    let dist := to_int (end_ v - p) in
    temp ← ArrayPtr_new (to_size_t dist);
    temp ← std_move (items_ v) p (end_ v) temp 0;
    v1 ← Resize (wrap (size_ v + 1)) v;
    let t := end_ v1 - dist - 1 in
    x ← read_reference value (reallocates (wrap (size_ v + 1)) v) (items_ v1);
    items ← assign_at (items_ v1) t x;
    items ← std_move temp 0 (0 + dist) items (t + 1);
    Ok (t, {| items_ := items; size_ := size_ v1; capacity_ := capacity_ v1 |}).

(** [Erase] returns the offset it was given together with the new state. *)
Definition Erase (pos : Z) (v : SimpleVector) : outcome (Z * SimpleVector) :=
  _ ← assert (size_ v >? 0);
  let first := pos + 1 in
  let p := pos in
  let last := end_ v in
  let size := wrap (size_ v - 1) in
  items ← std_move_within (items_ v) first last p;
  Ok (p, {| items_ := items; size_ := size; capacity_ := capacity_ v |}).

(** [operator[]] *)
Definition index (i : Z) (v : SimpleVector) : outcome T := deref (items_ v) i.

Definition At (i : Z) (v : SimpleVector) : outcome T :=
  if i >=? size_ v then OutOfRange else deref (items_ v) i.

(** [SimpleVector(const SimpleVector& other)]: the object under
    construction starts from its default member initialisers and is
    swapped with [temp]. *)
Definition SimpleVector_copy (other : SimpleVector) : outcome SimpleVector :=
  temp ← SimpleVector_sized (GetSize other);
  items ← std_copy (items_ other) (begin_ other) (end_ other) (items_ temp) (begin_ temp);
  let temp := {| items_ := items; size_ := size_ other; capacity_ := capacity_ other |} in
  Ok temp.

(** [SimpleVector(SimpleVector&& other)]: the constructed object and what
    is left of [other].  [temp] exchanges its members with [other] one by
    one; the object under construction, default-initialised, is then
    swapped with [temp]. *)
Definition SimpleVector_move (other : SimpleVector) : SimpleVector * SimpleVector :=
  let temp := SimpleVector_default in
  let '(temp, other) :=
    ({| items_ := items_ other; size_ := size_ temp; capacity_ := capacity_ temp |},
     {| items_ := items_ temp; size_ := size_ other; capacity_ := capacity_ other |}) in
  let '(temp, other) :=
    ({| items_ := items_ temp; size_ := size_ other; capacity_ := capacity_ temp |},
     {| items_ := items_ other; size_ := 0; capacity_ := capacity_ other |}) in
  let '(temp, other) :=
    ({| items_ := items_ temp; size_ := size_ temp; capacity_ := capacity_ other |},
     {| items_ := items_ other; size_ := size_ other; capacity_ := 0 |}) in
  let '(this, temp) := (temp, SimpleVector_default) in
  (this, other).

(** ** Objects that may alias *)

Definition addr : Type := nat.

(** The object a reference denotes; a reference to no object is undefined
    behaviour. *)
Definition object (σ : gmap nat SimpleVector) (a : addr) : outcome SimpleVector :=
  match σ !! a with
  | Some v => Ok v
  | None => UB
  end.

(** [a.swap(b)]: three member-wise swaps; each is the identity when both
    references denote one object. *)
Definition swap (this other : addr) (σ : gmap nat SimpleVector)
  : outcome (gmap nat SimpleVector) :=
  a ← object σ this;
  b ← object σ other;
  Ok (<[other := a]> (<[this := b]> σ)).

Definition op_eq (lhs rhs : addr) (σ : gmap nat SimpleVector) : outcome bool :=
  if decide (lhs = rhs) then Ok true
  else
    a ← object σ lhs;
    b ← object σ rhs;
    if GetSize a =? GetSize b
    then std_equal (items_ a) (begin_ a) (end_ a) (items_ b) (begin_ b)
    else Ok false.

Definition op_ne (lhs rhs : addr) (σ : gmap nat SimpleVector) : outcome bool :=
  eq ← op_eq lhs rhs σ;
  Ok (negb eq).

(** [operator=(const SimpleVector& rhs)] *)
Definition assign_copy (this rhs : addr) (σ : gmap nat SimpleVector)
  : outcome (gmap nat SimpleVector) :=
  ne ← op_ne this rhs σ;
  _ ← assert ne;
  r ← object σ rhs;
  temp ← SimpleVector_copy r;
  _ ← object σ this;
  Ok (<[this := temp]> σ).

(** [operator=(SimpleVector&& rhs)] *)
Definition assign_move (this rhs : addr) (σ : gmap nat SimpleVector)
  : outcome (gmap nat SimpleVector) :=
  ne ← op_ne this rhs σ;
  _ ← assert ne;
  r ← object σ rhs;
  a ← object σ this;
  a ← Resize (GetSize r) a;
  let σ := <[this := a]> σ in
  r ← object σ rhs;
  a ← object σ this;
  items ← (if decide (this = rhs)
           then std_move_within (items_ r) (begin_ r) (end_ r) (begin_ a)
           else std_move (items_ r) (begin_ r) (end_ r) (items_ a) (begin_ a));
  Ok (<[this := {| items_ := items; size_ := size_ a; capacity_ := capacity_ a |}]> σ).

(** ** Observations and the representation invariant *)

(** The live elements, slots [0, size_). *)
Definition live (v : SimpleVector) : list T := take (Z.to_nat (size_ v)) (items_ v).

(** The live slots lie inside the owned buffer. *)
Definition in_buffer (v : SimpleVector) : Prop :=
  0 ≤ size_ v ≤ Z.of_nat (length (items_ v)).

(** [size_ <= capacity_], both [size_t] values, and the owned buffer has
    exactly [capacity_] slots. *)
Definition invariant (v : SimpleVector) : Prop :=
  0 ≤ size_ v ≤ capacity_ v ∧ capacity_ v ≤ SIZE_MAX
  ∧ Z.of_nat (length (items_ v)) = capacity_ v.

(** The growth policy in the words of the specification, on unbounded
    integers: [capacity = max(1, capacity); while capacity < new_size:
    capacity *= 2].  The loop doubles at most [log2_up new_size] times. *)
Fixpoint doubling (fuel : nat) (new_size c : Z) : Z :=
  match fuel with
  | O => c
  | S f => if c <? new_size then doubling f new_size (c * 2) else c
  end.

Definition doubled_capacity (new_size capacity : Z) : Z :=
  doubling (S (Z.to_nat (Z.log2_up new_size))) new_size (Z.max 1 capacity).

(** Two vectors hold equal sequences: equal sizes and live elements that
    [operator==] of the element type identifies pairwise. *)
Definition equal_contents (a b : SimpleVector) : Prop :=
  size_ a = size_ b ∧ Forall2 (λ x y, Type_eq x y = true) (live a) (live b).

(** The operands of an assignment are equal in value: one object, or two
    objects holding equal sequences. *)
Definition equal_values (σ : gmap nat SimpleVector) (this rhs : addr) : Prop :=
  this = rhs
  ∨ ∃ a b, σ !! this = Some a ∧ σ !! rhs = Some b
           ∧ in_buffer a ∧ in_buffer b ∧ equal_contents a b.

(** Appending one element needs room: a free slot, or a doubled capacity
    that can be allocated. *)
Definition can_grow (v : SimpleVector) : Prop :=
  size_ v < capacity_ v
  ∨ doubled_capacity (size_ v + 1) (capacity_ v) ≤ max_alloc.

(** ** Ordering *)

(** [operator<] of the element type. *)
Variable Type_lt : T → T → bool.

(** [std::lexicographical_compare]: walk both ranges while neither is
    exhausted; the first pair of elements that [operator<] orders decides;
    otherwise the first range is less exactly when it ends first. *)
Fixpoint lex_loop (n1 : nat) (a : buffer) (i : nat) (n2 : nat) (b : buffer) (j : nat)
  : outcome bool :=
  match n1, n2 with
  | S k1, S k2 =>
      x ← load a i;
      y ← load b j;
      if Type_lt x y then Ok true
      else if Type_lt y x then Ok false
      else lex_loop k1 a (S i) k2 b (S j)
  | O, S _ => Ok true
  | _, O => Ok false
  end.

Definition std_lexicographical_compare
    (a : buffer) (first1 last1 : Z) (b : buffer) (first2 last2 : Z) : outcome bool :=
  if decide (0 ≤ first1 ∧ first1 ≤ last1 ∧ 0 ≤ first2 ∧ first2 ≤ last2)
  then lex_loop (Z.to_nat (last1 - first1)) a (Z.to_nat first1)
                (Z.to_nat (last2 - first2)) b (Z.to_nat first2)
  else UB.

Definition op_lt (lhs rhs : addr) (σ : gmap nat SimpleVector) : outcome bool :=
  a ← object σ lhs;
  b ← object σ rhs;
  std_lexicographical_compare (items_ a) (begin_ a) (end_ a) (items_ b) (begin_ b) (end_ b).

Definition op_ge (lhs rhs : addr) (σ : gmap nat SimpleVector) : outcome bool :=
  lt ← op_lt lhs rhs σ;
  Ok (negb lt).

Definition op_le (lhs rhs : addr) (σ : gmap nat SimpleVector) : outcome bool :=
  op_ge rhs lhs σ.

Definition op_gt (lhs rhs : addr) (σ : gmap nat SimpleVector) : outcome bool :=
  op_lt rhs lhs σ.

(** The lexicographic order on sequences that the comparison is meant to
    compute, by recursion on the two lists. *)
Fixpoint lex_lt (l1 l2 : list T) : bool :=
  match l1, l2 with
  | x :: l1', y :: l2' =>
      if Type_lt x y then true
      else if Type_lt y x then false
      else lex_lt l1' l2'
  | [], _ :: _ => true
  | _, [] => false
  end.

(** A caller's loop over a list that is not stored in the vector,
    [for (const Type& x : xs) v.PushBack(x);]. *)
Fixpoint PushBack_all (xs : list T) (v : SimpleVector) : outcome SimpleVector :=
  match xs with
  | [] => Ok v
  | x :: xs' =>
      v' ← PushBack (Outside x) v;
      PushBack_all xs' v'
  end.

End Elements.

Arguments SimpleVector T : clear implicits.
Arguments reference T : clear implicits.

(** ** Vectors of integers used as concrete inputs *)

(** What a freshly allocated [int] holds in the concrete runs below.  A
    value other than [int()] tells the slots the code assigned from the
    slots it only allocated. *)
Definition int_new : Z := 7.

(** [SimpleVector<int>{1, 2, 3}] *)
Definition v123 : SimpleVector Z :=
  {| items_ := [1; 2; 3]; size_ := 3; capacity_ := 3 |}.

(** [SimpleVector<int>{1, 2, 3}] after [Reserve(4)] *)
Definition v123_reserved : SimpleVector Z :=
  {| items_ := [1; 2; 3; 0]; size_ := 3; capacity_ := 4 |}.

(** [SimpleVector<int>{1, 2, 4}] *)
Definition v124 : SimpleVector Z :=
  {| items_ := [1; 2; 4]; size_ := 3; capacity_ := 3 |}.

(** [SimpleVector<int>(2147483648)]: 2^31 value-initialised elements. *)
Definition v_2_31 : SimpleVector Z :=
  {| items_ := replicate (Z.to_nat (2 ^ 31)) 0; size_ := 2 ^ 31; capacity_ := 2 ^ 31 |}.

(** One object, at address 0. *)
Definition one_object : gmap nat (SimpleVector Z) := {[ 0%nat := v123 ]}.

(** Two objects holding the same sequence in different buffers. *)
Definition equal_objects : gmap nat (SimpleVector Z) :=
  <[ 1%nat := v123_reserved ]> {[ 0%nat := v123 ]}.

(** Two objects holding different sequences. *)
Definition different_objects : gmap nat (SimpleVector Z) :=
  <[ 1%nat := v123_reserved ]> {[ 0%nat := v124 ]}.

(** What the copy constructor makes of [v123_reserved]. *)
Definition v123_copied : SimpleVector Z :=
  {| items_ := [1; 2; 3]; size_ := 3; capacity_ := 4 |}.

(** [SimpleVector<int>{1, 2}] *)
Definition v12 : SimpleVector Z :=
  {| items_ := [1; 2]; size_ := 2; capacity_ := 2 |}.

(** [{1, 2, 3}] at address 0 and [{1, 2}] at address 1. *)
Definition prefix_objects : gmap nat (SimpleVector Z) :=
  <[ 1%nat := v12 ]> {[ 0%nat := v123 ]}.

(** * Proofs *)

Lemma bind_Ok {A B} (a : A) (f : A → outcome B) : (Ok a ≫= f) = f a.
Proof. reflexivity. Qed.

Ltac bind_ok := rewrite ?bind_Ok; cbv beta.

(** ** The loops over buffers *)

Section BufferLoops.
Context {T : Type}.
Variable d : T.
Variable u : T.
Variable Type_eq : T → T → bool.
Implicit Types (b src dst l m : list T) (x y e : T).

Lemma store_Ok b i x : (i < length b)%nat → store b i x = Ok (<[i:=x]> b).
Proof. intros H. unfold store. by rewrite decide_True. Qed.

Lemma store_middle l1 l2 y x : store (l1 ++ y :: l2) (length l1) x = Ok (l1 ++ x :: l2).
Proof.
  rewrite store_Ok by (rewrite length_app; simpl; lia).
  f_equal. pose proof (insert_app_r l1 (y :: l2) 0 x) as H.
  by rewrite Nat.add_0_r in H.
Qed.

Lemma load_middle l1 l2 y : load (l1 ++ y :: l2) (length l1) = Ok y.
Proof. unfold load. by rewrite list_lookup_middle. Qed.

Lemma split3 l (i n : nat) :
  (i + n ≤ length l)%nat →
  ∃ l1 l2 l3, l = l1 ++ l2 ++ l3 ∧ length l1 = i ∧ length l2 = n
              ∧ l1 = take i l ∧ l2 = take n (drop i l) ∧ l3 = drop (i + n) l.
Proof.
  intros H. exists (take i l), (take n (drop i l)), (drop (i + n) l).
  repeat split.
  - by rewrite <- drop_drop, take_drop, take_drop.
  - rewrite length_take; lia.
  - rewrite length_take, length_drop; lia.
Qed.

Lemma fill_loop_app x l2 : ∀ l1 l3,
  fill_loop (length l2) (l1 ++ l2 ++ l3) (length l1) x
  = Ok (l1 ++ replicate (length l2) x ++ l3).
Proof.
  induction l2 as [|y l2 IH]; intros l1 l3; simpl; [done|].
  rewrite store_middle. simpl.
  specialize (IH (l1 ++ [x]) l3).
  rewrite length_app, Nat.add_1_r, <- !app_assoc in IH. done.
Qed.

Lemma move_loop_app m : ∀ s1 s3 d1 d2 d3,
  length d2 = length m →
  move_loop (length m) (s1 ++ m ++ s3) (length s1) (d1 ++ d2 ++ d3) (length d1)
  = Ok (d1 ++ m ++ d3).
Proof.
  induction m as [|y m IH]; intros s1 s3 d1 d2 d3 Hlen.
  - by destruct d2.
  - destruct d2 as [|z d2]; [done|]. simpl in *.
    rewrite load_middle. simpl. rewrite store_middle. simpl.
    specialize (IH (s1 ++ [y]) s3 (d1 ++ [y]) d2 d3).
    rewrite !length_app, !Nat.add_1_r, <- !app_assoc in IH.
    apply IH. lia.
Qed.

Lemma move_within_shift m : ∀ l1 e l3,
  move_within (length m) (l1 ++ e :: m ++ l3) (S (length l1)) (length l1)
  = Ok (l1 ++ m ++ default e (last m) :: l3).
Proof.
  induction m as [|y m IH]; intros l1 e l3; [done|].
  cbn [length move_within].
  replace (l1 ++ e :: (y :: m) ++ l3) with ((l1 ++ [e]) ++ y :: m ++ l3)
    by (by rewrite <- app_assoc).
  replace (S (length l1)) with (length (l1 ++ [e])) at 1
    by (rewrite length_app; simpl; lia).
  rewrite load_middle. simpl. rewrite <- app_assoc. simpl.
  rewrite store_middle. simpl.
  specialize (IH (l1 ++ [y]) y l3).
  rewrite length_app, Nat.add_1_r, <- !app_assoc in IH. simpl in IH.
  rewrite IH, last_cons. by destruct (last m).
Qed.

Lemma equal_loop_true m1 : ∀ m2 a1 a3 b1 b3,
  Forall2 (λ x y, Type_eq x y = true) m1 m2 →
  equal_loop Type_eq (length m1) (a1 ++ m1 ++ a3) (length a1) (b1 ++ m2 ++ b3) (length b1)
  = Ok true.
Proof.
  induction m1 as [|x m1 IH]; intros m2 a1 a3 b1 b3 H; [done|].
  inversion H as [|? y ? m2' Hxy Hrest]; subst. simpl.
  rewrite !load_middle. simpl. rewrite Hxy.
  specialize (IH m2' (a1 ++ [x]) a3 (b1 ++ [y]) b3 Hrest).
  by rewrite !length_app, !Nat.add_1_r, <- !app_assoc in IH.
Qed.

End BufferLoops.

(** ** The standard algorithms and the growth policy *)

Section Algorithms.
Context {T : Type}.
Variable d : T.
Variable u : T.
Variable Type_eq : T → T → bool.
Implicit Types (b src dst l m : list T) (x y e : T).

Lemma std_fill_spec b first last x l1 l2 l3 :
  b = l1 ++ l2 ++ l3 →
  Z.of_nat (length l1) = first →
  Z.of_nat (length l2) = last - first →
  std_fill b first last x = Ok (l1 ++ replicate (length l2) x ++ l3).
Proof.
  intros -> <- H2. unfold std_fill. rewrite decide_True by lia.
  rewrite <- H2, !Nat2Z.id. apply fill_loop_app.
Qed.

Lemma std_move_spec src first last dst d_first s1 m s3 d1 d2 d3 :
  src = s1 ++ m ++ s3 → dst = d1 ++ d2 ++ d3 →
  Z.of_nat (length s1) = first → Z.of_nat (length m) = last - first →
  Z.of_nat (length d1) = d_first → length d2 = length m →
  std_move src first last dst d_first = Ok (d1 ++ m ++ d3).
Proof.
  intros -> -> <- H2 <- H4. unfold std_move. rewrite decide_True by lia.
  rewrite <- H2, !Nat2Z.id. by apply move_loop_app.
Qed.

Lemma std_move_within_shift b p lst l1 e m l3 :
  b = l1 ++ e :: m ++ l3 →
  Z.of_nat (length l1) = p → Z.of_nat (length m) = lst - (p + 1) →
  std_move_within b (p + 1) lst p = Ok (l1 ++ m ++ default e (last m) :: l3).
Proof.
  intros -> <- H2. unfold std_move_within. rewrite decide_True by lia.
  rewrite <- H2, !Nat2Z.id.
  replace (Z.to_nat (Z.of_nat (length l1) + 1)) with (S (length l1)) by lia.
  apply move_within_shift.
Qed.

Lemma std_equal_true a first last b first2 a1 m1 a3 b1 m2 b3 :
  a = a1 ++ m1 ++ a3 → b = b1 ++ m2 ++ b3 →
  Z.of_nat (length a1) = first → Z.of_nat (length m1) = last - first →
  Z.of_nat (length b1) = first2 →
  Forall2 (λ x y, Type_eq x y = true) m1 m2 →
  std_equal Type_eq a first last b first2 = Ok true.
Proof.
  intros -> -> <- H2 <- HF. unfold std_equal. rewrite decide_True by lia.
  rewrite <- H2, !Nat2Z.id. by apply equal_loop_true.
Qed.

(** The loop of [Resize] computes the doubled capacity of the
    specification whenever that capacity is a [size_t]. *)

Lemma doubling_ge_start f : ∀ n c, 0 ≤ c → c ≤ doubling f n c.
Proof.
  induction f as [|f IH]; intros n c Hc; simpl; [lia|].
  destruct (c <? n); [|lia]. specialize (IH n (c * 2)). lia.
Qed.

Lemma doubling_reaches f : ∀ n c,
  1 ≤ c → n ≤ c * 2 ^ Z.of_nat f → n ≤ doubling f n c.
Proof.
  induction f as [|f IH]; intros n c Hc Hn; simpl.
  - simpl in Hn. lia.
  - destruct (Z.ltb_spec c n); [|lia].
    apply IH; [lia|]. rewrite Nat2Z.inj_succ, Z.pow_succ_r in Hn by lia. lia.
Qed.

Lemma doubled_capacity_ge n cap : n ≤ doubled_capacity n cap.
Proof.
  unfold doubled_capacity. apply doubling_reaches; [lia|].
  destruct (Z.le_gt_cases n 1) as [Hn|Hn].
  - assert (0 < 2 ^ Z.of_nat (S (Z.to_nat (Z.log2_up n)))) by (apply Z.pow_pos_nonneg; lia).
    nia.
  - pose proof (Z.log2_up_spec n Hn) as [_ Hup].
    pose proof (Z.log2_up_nonneg n).
    rewrite Nat2Z.inj_succ, Z2Nat.id, Z.pow_succ_r by lia. nia.
Qed.

Lemma grow_loop_unfold f n c :
  grow_loop f n c =
    if c <? n then
      match f with O => Diverges | S f' => grow_loop f' n (next_capacity c) end
    else Ok c.
Proof. destruct f; simpl; by rewrite Z.gtb_ltb. Qed.

Lemma next_capacity_double c : 1 ≤ c → c * 2 ≤ SIZE_MAX → next_capacity c = c * 2.
Proof.
  intros H1 H2. unfold next_capacity, wrap, SIZE_MAX in *.
  destruct (Z.eqb_spec c 0); [lia|]. apply Z.mod_small. lia.
Qed.

Lemma grow_loop_doubling f : ∀ n c,
  1 ≤ c → n ≤ doubling f n c → doubling f n c ≤ SIZE_MAX →
  grow_loop f n c = Ok (doubling f n c).
Proof.
  induction f as [|f IH]; intros n c Hc Hn Hmax; rewrite grow_loop_unfold; simpl in *.
  - destruct (Z.ltb_spec c n); [lia|done].
  - destruct (Z.ltb_spec c n); [|done].
    pose proof (doubling_ge_start f n (c * 2)).
    rewrite next_capacity_double by lia. apply IH; lia.
Qed.

Lemma grow_loop_mono f : ∀ f' n c r,
  grow_loop f n c = Ok r → (f ≤ f')%nat → grow_loop f' n c = Ok r.
Proof.
  induction f as [|f IH]; intros f' n c r H Hle;
    rewrite grow_loop_unfold in H; rewrite (grow_loop_unfold f');
    destruct (c <? n); try done.
  destruct f' as [|f']; [lia|]. apply IH; [done|lia].
Qed.

Lemma grow_capacity_spec n cap :
  0 ≤ cap < n → doubled_capacity n cap ≤ SIZE_MAX →
  grow_capacity n cap = Ok (doubled_capacity n cap).
Proof.
  intros Hcap Hmax. pose proof (doubled_capacity_ge n cap) as Hge.
  assert (Hlog : (S (Z.to_nat (Z.log2_up n)) ≤ 65)%nat).
  { assert (Z.log2_up n ≤ 64); [|lia].
    apply Z.log2_up_le_pow2; [lia|]. unfold SIZE_MAX in Hmax. lia. }
  unfold grow_capacity, doubled_capacity, grow_fuel in *.
  destruct (Z.eq_dec cap 0) as [->|Hne].
  - rewrite grow_loop_unfold. destruct (Z.ltb_spec 0 n); [|lia].
    change (next_capacity 0) with 1. change (Z.max 1 0) with 1 in *.
    eapply grow_loop_mono; [apply grow_loop_doubling; [lia|done..]|lia].
  - rewrite Z.max_r in * by lia.
    eapply grow_loop_mono; [apply grow_loop_doubling; [lia|done..]|lia].
Qed.

(** The capacity chosen is the original one (1 for an empty buffer)
    doubled a least number of times. *)
Lemma doubling_least f : ∀ n c,
  1 ≤ c →
  ∃ k : Z, 0 ≤ k ≤ Z.of_nat f ∧ doubling f n c = c * 2 ^ k
           ∧ (0 < k → c * 2 ^ (k - 1) < n).
Proof.
  induction f as [|f IH]; intros n c Hc; simpl doubling.
  - exists 0. split; [lia|]. split; [simpl; lia|lia].
  - destruct (Z.ltb_spec c n) as [Hlt|Hge].
    + destruct (IH n (c * 2)) as (k & Hk & Heq & Hleast); [lia|].
      exists (k + 1). split; [lia|]. split.
      * rewrite Heq, Z.pow_add_r by lia. simpl. lia.
      * intros _. replace (k + 1 - 1) with k by lia.
        destruct (Z.eq_dec k 0) as [->|Hk0]; [simpl; lia|].
        specialize (Hleast ltac:(lia)).
        replace k with (k - 1 + 1) by lia. rewrite Z.pow_add_r by lia.
        simpl (2 ^ 1). lia.
    + exists 0. split; [lia|]. split; [simpl; lia|lia].
Qed.

Lemma doubled_capacity_least n cap :
  ∃ k : Z, 0 ≤ k ∧ doubled_capacity n cap = Z.max 1 cap * 2 ^ k
           ∧ n ≤ doubled_capacity n cap
           ∧ (0 < k → Z.max 1 cap * 2 ^ (k - 1) < n).
Proof.
  destruct (doubling_least (S (Z.to_nat (Z.log2_up n))) n (Z.max 1 cap))
    as (k & Hk & Heq & Hleast); [lia|].
  exists k. pose proof (doubled_capacity_ge n cap). unfold doubled_capacity in *.
  repeat split; [lia|done..].
Qed.
End Algorithms.

(** ** Capacity: [Resize], [Reserve], [PushBack], [PopBack] *)

Section Capacity.
Context {T : Type}.
Variable d : T.
Variable u : T.
Variable Type_eq : T → T → bool.
Implicit Types (b src dst l m : list T) (x y e : T) (v : SimpleVector T).

Lemma gtb_true (p q : Z) : q < p → (p >? q) = true.
Proof. intros. rewrite Z.gtb_ltb. by apply Z.ltb_lt. Qed.

Lemma gtb_false (p q : Z) : p ≤ q → (p >? q) = false.
Proof. intros. rewrite Z.gtb_ltb. by apply Z.ltb_ge. Qed.

Lemma is_null_true l : is_null l = true → l = [].
Proof. by destruct l. Qed.

Lemma ArrayPtr_new_Ok n :
  n ≤ max_alloc → ArrayPtr_new u n = Ok (replicate (Z.to_nat n) u).
Proof. intros. unfold ArrayPtr_new. by rewrite decide_True. Qed.

Lemma live_length v : in_buffer v → Z.of_nat (length (live v)) = size_ v.
Proof. unfold in_buffer, live. intros H. rewrite length_take. lia. Qed.

Lemma invariant_in_buffer v : invariant v → in_buffer v.
Proof. unfold invariant, in_buffer. lia. Qed.

Lemma live_mk l (n c : Z) :
  live {| items_ := l; size_ := n; capacity_ := c |} = take (Z.to_nat n) l.
Proof. done. Qed.

Lemma items_live v : items_ v = live v ++ drop (Z.to_nat (size_ v)) (items_ v).
Proof. unfold live. by rewrite take_drop. Qed.

Lemma Resize_shrink n v :
  n ≤ size_ v →
  Resize d u n v = Ok {| items_ := items_ v; size_ := n; capacity_ := capacity_ v |}.
Proof. intros. unfold Resize. by rewrite gtb_false. Qed.

Lemma Resize_within n v :
  invariant v → size_ v < n ≤ capacity_ v →
  Resize d u n v =
    Ok {| items_ := live v ++ replicate (Z.to_nat (n - size_ v)) d
                     ++ drop (Z.to_nat n) (items_ v);
          size_ := n; capacity_ := capacity_ v |}.
Proof.
  intros (Hsz & Hmax & Hlen) Hn. unfold Resize.
  rewrite gtb_true, gtb_false by lia. simpl.
  destruct (split3 (items_ v) (Z.to_nat (size_ v)) (Z.to_nat (n - size_ v)))
    as (l1 & l2 & l3 & Heq & Hl1 & Hl2 & -> & _ & ->); [lia|].
  unfold begin_. rewrite (std_fill_spec _ _ _ _ _ l2 _ Heq) by lia. simpl.
  rewrite Hl2. unfold live. do 4 f_equal. f_equal. lia.
Qed.

Lemma Resize_grow n v :
  invariant v → capacity_ v < n →
  doubled_capacity n (capacity_ v) ≤ max_alloc →
  Resize d u n v =
    Ok {| items_ := live v ++ replicate (Z.to_nat (n - size_ v)) d
                     ++ replicate (Z.to_nat (doubled_capacity n (capacity_ v) - n)) u;
          size_ := n; capacity_ := doubled_capacity n (capacity_ v) |}.
Proof.
  intros (Hsz & Hmax & Hlen) Hn Halloc. unfold Resize.
  pose proof (doubled_capacity_ge n (capacity_ v)) as Hge.
  set (c := doubled_capacity n (capacity_ v)) in *.
  rewrite !gtb_true by lia.
  rewrite grow_capacity_spec by (unfold max_alloc, SIZE_MAX in *; lia). fold c. simpl.
  rewrite ArrayPtr_new_Ok by done. simpl.
  assert (Htemp : replicate (Z.to_nat c) u
      = [] ++ replicate (Z.to_nat (size_ v)) u ++ replicate (Z.to_nat (n - size_ v)) u
           ++ replicate (Z.to_nat (c - n)) u).
  { simpl. rewrite <- !replicate_add. f_equal. lia. }
  assert (Hmoved : (if negb (is_null (items_ v))
                    then std_move (items_ v) (begin_ v) (end_ v) (replicate (Z.to_nat c) u) 0
                    else Ok (replicate (Z.to_nat c) u))
           = Ok (live v ++ replicate (Z.to_nat (n - size_ v)) u ++ replicate (Z.to_nat (c - n)) u)).
  { destruct (is_null (items_ v)) eqn:Hnull; cbn [negb].
    - apply is_null_true in Hnull. rewrite Hnull in Hlen. simpl in Hlen.
      assert (size_ v = 0) as Hz by lia.
      unfold live. rewrite Hz. simpl. rewrite <- replicate_add. do 2 f_equal. lia.
    - rewrite Htemp.
      rewrite (std_move_spec _ _ _ _ _ [] (live v) (drop (Z.to_nat (size_ v)) (items_ v))
                 [] (replicate (Z.to_nat (size_ v)) u)
                 (replicate (Z.to_nat (n - size_ v)) u ++ replicate (Z.to_nat (c - n)) u));
        try done.
      + apply items_live.
      + unfold begin_, end_, live. rewrite length_take. lia.
      + unfold live. rewrite length_take, length_replicate. lia. }
  rewrite Hmoved. simpl. unfold begin_.
  rewrite (std_fill_spec _ _ _ _ (live v) (replicate (Z.to_nat (n - size_ v)) u)
             (replicate (Z.to_nat (c - n)) u)); try done.
  - simpl. by rewrite length_replicate.
  - unfold live. rewrite length_take. lia.
  - rewrite length_replicate. lia.
Qed.

(** Growing to [n]: both branches of [Resize] that extend the vector. *)
Lemma Resize_extend n v :
  invariant v → size_ v < n →
  n ≤ capacity_ v ∨ doubled_capacity n (capacity_ v) ≤ max_alloc →
  ∃ v', Resize d u n v = Ok v' ∧ invariant v' ∧ size_ v' = n
        ∧ live v' = live v ++ replicate (Z.to_nat (n - size_ v)) d
        ∧ capacity_ v' = (if n <=? capacity_ v then capacity_ v
                          else doubled_capacity n (capacity_ v)).
Proof.
  intros Hinv Hn Halloc. pose proof Hinv as (Hsz & Hmax & Hlen).
  pose proof (live_length v (invariant_in_buffer v Hinv)) as Hlive.
  destruct (Z.leb_spec n (capacity_ v)) as [Hle|Hgt].
  - eexists. split; [by apply Resize_within|]. unfold invariant, live. simpl.
    rewrite !length_app, length_drop, length_replicate.
    fold (live v). split; [lia|]. split; [done|].
    rewrite app_assoc, take_app_length'; [done|].
    rewrite length_app, length_replicate. lia.
  - destruct Halloc as [?|Halloc]; [lia|].
    pose proof (doubled_capacity_ge n (capacity_ v)).
    eexists. split; [by apply Resize_grow|]. unfold invariant. simpl.
    rewrite !length_app, !length_replicate.
    split; [unfold max_alloc, SIZE_MAX in *; lia|]. split; [done|].
    unfold live at 1. simpl.
    rewrite app_assoc, take_app_length'; [done|].
    rewrite length_app, length_replicate. lia.
Qed.

Lemma Reserve_noop n v : n ≤ capacity_ v → Reserve d u n v = Ok v.
Proof. intros. unfold Reserve. by rewrite gtb_false. Qed.

Lemma Reserve_grow n v :
  invariant v → capacity_ v < n → n ≤ max_alloc →
  Reserve d u n v =
    Ok {| items_ := (if size_ v =? 0 then replicate (Z.to_nat (capacity_ v)) u else items_ v)
                     ++ replicate (Z.to_nat (n - capacity_ v)) d;
          size_ := size_ v; capacity_ := n |}.
Proof.
  intros (Hsz & Hmax & Hlen) Hn Halloc. unfold Reserve.
  rewrite gtb_true, ArrayPtr_new_Ok by lia. bind_ok.
  assert (Htemp : replicate (Z.to_nat n) u
      = [] ++ replicate (Z.to_nat (capacity_ v)) u ++ replicate (Z.to_nat (n - capacity_ v)) u).
  { simpl. rewrite <- replicate_add. f_equal. lia. }
  set (kept := if size_ v =? 0 then replicate (Z.to_nat (capacity_ v)) u else items_ v).
  assert (Hkept : Z.of_nat (length kept) = capacity_ v).
  { unfold kept. destruct (size_ v =? 0); [rewrite length_replicate|]; lia. }
  assert (Hmoved : (if negb (begin_ v =? end_ v)
                    then std_move (items_ v) 0 (capacity_ v) (replicate (Z.to_nat n) u) 0
                    else Ok (replicate (Z.to_nat n) u))
           = Ok (kept ++ replicate (Z.to_nat (n - capacity_ v)) u ++ [])).
  { unfold begin_, end_, kept. rewrite (Z.eqb_sym 0).
    destruct (size_ v =? 0); cbn [negb].
    - rewrite app_nil_r, <- replicate_add. do 2 f_equal. lia.
    - rewrite Htemp.
      rewrite (std_move_spec _ _ _ _ _ [] (items_ v) [] [] (replicate (Z.to_nat (capacity_ v)) u)
                 (replicate (Z.to_nat (n - capacity_ v)) u)); try done.
      + by rewrite app_nil_r.
      + by rewrite app_nil_r.
      + lia.
      + rewrite length_replicate. lia. }
  rewrite Hmoved. bind_ok.
  rewrite (std_fill_spec _ _ _ _ kept (replicate (Z.to_nat (n - capacity_ v)) u) []);
    try done.
  - simpl. by rewrite length_replicate, app_nil_r.
  - rewrite length_replicate. lia.
Qed.

Lemma wrap_small z : 0 ≤ z ≤ SIZE_MAX → wrap z = z.
Proof. unfold wrap, SIZE_MAX. intros. apply Z.mod_small. lia. Qed.

Lemma assign_at_middle l1 l2 y x i :
  Z.of_nat (length l1) = i → assign_at (l1 ++ y :: l2) i x = Ok (l1 ++ x :: l2).
Proof.
  intros <-. unfold assign_at. rewrite decide_True by lia.
  rewrite Nat2Z.id. apply store_middle.
Qed.

Lemma can_grow_size v : invariant v → can_grow v → size_ v + 1 ≤ SIZE_MAX.
Proof.
  intros (Hsz & Hmax & Hlen) [?|Halloc]; [lia|].
  pose proof (doubled_capacity_ge (size_ v + 1) (capacity_ v)).
  unfold max_alloc, SIZE_MAX in *. lia.
Qed.

Lemma can_grow_extend v :
  invariant v → can_grow v →
  size_ v + 1 ≤ capacity_ v ∨ doubled_capacity (size_ v + 1) (capacity_ v) ≤ max_alloc.
Proof. unfold can_grow. lia. Qed.

Lemma PushBack_spec x v :
  invariant v → can_grow v →
  ∃ v', PushBack d u (Outside x) v = Ok v' ∧ invariant v' ∧ size_ v' = size_ v + 1
        ∧ live v' = live v ++ [x]
        ∧ capacity_ v' = (if size_ v + 1 <=? capacity_ v then capacity_ v
                          else doubled_capacity (size_ v + 1) (capacity_ v)).
Proof.
  intros Hinv Hgrow. pose proof (can_grow_size v Hinv Hgrow) as Hsize.
  pose proof Hinv as (Hsz & Hmax & Hlen).
  destruct (Resize_extend (size_ v + 1) v Hinv ltac:(lia) (can_grow_extend v Hinv Hgrow))
    as (v1 & HR & Hinv1 & Hsz1 & Hlive1 & Hcap1).
  pose proof (live_length v (invariant_in_buffer v Hinv)) as Hlive.
  replace (Z.to_nat (size_ v + 1 - size_ v)) with 1%nat in Hlive1 by lia.
  pose proof (items_live v1) as Hitems1. rewrite Hlive1 in Hitems1.
  set (R := drop (Z.to_nat (size_ v1)) (items_ v1)) in *.
  destruct Hinv1 as (Hs1 & Hm1 & Hlen1).
  rewrite Hitems1, !length_app in Hlen1. cbn [replicate length] in Hlen1.
  unfold PushBack. rewrite wrap_small by lia. rewrite HR. bind_ok.
  cbn [read_reference]. bind_ok.
  rewrite Hitems1, <- app_assoc. cbn [replicate app].
  unfold end_. rewrite (assign_at_middle (live v) R d x) by lia. bind_ok.
  eexists. split; [done|]. unfold invariant. rewrite live_mk. cbn [items_ size_ capacity_].
  rewrite length_app. cbn [length].
  split; [lia|]. split; [done|]. split; [|done].
  rewrite (cons_middle x), app_assoc. apply take_app_length'.
  rewrite length_app. simpl. lia.
Qed.

(** Adding one element to a full vector makes [Resize] replace the
    buffer. *)
Lemma reallocates_full v :
  size_ v = capacity_ v → reallocates (size_ v + 1) v = true.
Proof. intros Hfull. unfold reallocates. by rewrite !gtb_true by lia. Qed.

(** With a free slot it does not. *)
Lemma reallocates_free v :
  size_ v < capacity_ v → reallocates (size_ v + 1) v = false.
Proof.
  intros Hfree. unfold reallocates. rewrite gtb_true, gtb_false by lia. done.
Qed.

(** A reference to a slot of the vector dangles once [Resize] has freed the
    buffer: [PushBack] reads it after that. *)
Lemma PushBack_dangling i v :
  invariant v → can_grow v → size_ v = capacity_ v → PushBack d u (Slot i) v = UB.
Proof.
  intros Hinv Hgrow Hfull. pose proof (can_grow_size v Hinv Hgrow) as Hsize.
  pose proof Hinv as (Hsz & Hmax & Hlen).
  destruct (Resize_extend (size_ v + 1) v Hinv ltac:(lia) (can_grow_extend v Hinv Hgrow))
    as (v1 & HR & _).
  unfold PushBack. rewrite wrap_small by lia. rewrite HR. bind_ok.
  rewrite reallocates_full by done. done.
Qed.

Lemma PopBack_spec v :
  invariant v → 0 < size_ v →
  PopBack v = Ok {| items_ := items_ v; size_ := size_ v - 1; capacity_ := capacity_ v |}.
Proof.
  intros (Hsz & Hmax & Hlen) Hpos. unfold PopBack.
  rewrite gtb_true by lia. simpl. by rewrite wrap_small by lia.
Qed.

End Capacity.

(** ** [Erase] and [Insert] *)

Section InsertErase.
Context {T : Type}.
Variable d : T.
Variable u : T.
Variable Type_eq : T → T → bool.
Implicit Types (b src dst l m : list T) (x y e : T) (v : SimpleVector T).

Lemma to_int_small z : - 2 ^ 31 ≤ z < 2 ^ 31 → to_int z = z.
Proof. intros. unfold to_int. rewrite Z.mod_small; lia. Qed.

Lemma Erase_spec pos v :
  invariant v → 0 ≤ pos < size_ v →
  ∃ v', Erase pos v = Ok (pos, v') ∧ invariant v'
        ∧ size_ v' = size_ v - 1 ∧ capacity_ v' = capacity_ v
        ∧ live v' = take (Z.to_nat pos) (live v) ++ drop (Z.to_nat (pos + 1)) (live v).
Proof.
  intros Hinv Hpos. pose proof Hinv as (Hsz & Hmax & Hlen).
  pose proof (live_length v (invariant_in_buffer v Hinv)) as Hlive.
  destruct (lookup_lt_is_Some_2 (live v) (Z.to_nat pos)) as [e He]; [lia|].
  pose proof (take_drop_middle _ _ _ He) as Hsplit.
  replace (S (Z.to_nat pos)) with (Z.to_nat (pos + 1)) in Hsplit by lia.
  set (L1 := take (Z.to_nat pos) (live v)) in *.
  set (M := drop (Z.to_nat (pos + 1)) (live v)) in *.
  set (R := drop (Z.to_nat (size_ v)) (items_ v)).
  assert (Hitems : items_ v = L1 ++ e :: M ++ R).
  { rewrite (items_live v), <- Hsplit, <- app_assoc. done. }
  assert (HL1 : Z.of_nat (length L1) = pos).
  { unfold L1. rewrite length_take. lia. }
  assert (HM : Z.of_nat (length M) = size_ v - (pos + 1)).
  { unfold M. rewrite length_drop. lia. }
  unfold Erase. rewrite gtb_true by lia. bind_ok.
  unfold end_.
  rewrite (std_move_within_shift _ _ _ L1 e M R Hitems) by lia. bind_ok.
  rewrite wrap_small by lia.
  eexists. split; [done|]. unfold invariant. rewrite live_mk. cbn [items_ size_ capacity_].
  rewrite Hitems in Hlen. rewrite !length_app in *. cbn [length] in *.
  rewrite length_app in Hlen.
  split; [lia|]. split; [done|]. split; [done|].
  rewrite app_assoc. apply take_app_length'. rewrite length_app. lia.
Qed.

Lemma Insert_spec pos x v :
  invariant v → 0 ≤ pos ≤ size_ v → size_ v - pos < 2 ^ 31 → can_grow v →
  ∃ v', Insert d u pos (Outside x) v = Ok (pos, v') ∧ invariant v'
        ∧ size_ v' = size_ v + 1
        ∧ live v' = take (Z.to_nat pos) (live v) ++ x :: drop (Z.to_nat pos) (live v)
        ∧ capacity_ v' = (if size_ v + 1 <=? capacity_ v then capacity_ v
                          else doubled_capacity (size_ v + 1) (capacity_ v)).
Proof.
  intros Hinv Hpos Hint Hgrow. pose proof (can_grow_size v Hinv Hgrow) as Hsize.
  pose proof Hinv as (Hsz & Hmax & Hlen).
  destruct (Resize_extend d u (size_ v + 1) v Hinv ltac:(lia) (can_grow_extend v Hinv Hgrow))
    as (v1 & HR & Hinv1 & Hsz1 & Hlive1 & Hcap1).
  pose proof (live_length v (invariant_in_buffer v Hinv)) as Hlive.
  replace (Z.to_nat (size_ v + 1 - size_ v)) with 1%nat in Hlive1 by lia.
  pose proof (items_live v1) as Hitems1. rewrite Hlive1 in Hitems1.
  set (R := drop (Z.to_nat (size_ v1)) (items_ v1)) in *.
  destruct Hinv1 as (Hs1 & Hm1 & Hlen1).
  rewrite Hitems1, !length_app in Hlen1. cbn [replicate length] in Hlen1.
  pose proof (take_drop (Z.to_nat pos) (live v)) as Hsplit.
  set (L1 := take (Z.to_nat pos) (live v)) in *.
  set (L2 := drop (Z.to_nat pos) (live v)) in *.
  assert (HL1 : Z.of_nat (length L1) = pos).
  { unfold L1. rewrite length_take. lia. }
  assert (HL2 : Z.of_nat (length L2) = size_ v - pos).
  { unfold L2. rewrite length_drop. lia. }
  unfold Insert, begin_, end_. rewrite wrap_small by lia. rewrite HR.
  destruct (Z.eqb_spec 0 (size_ v)) as [Hempty|Hne].
  - bind_ok. assert (pos = 0) as -> by lia.
    destruct L1; [|simpl in HL1; lia]. destruct L2; [|simpl in HL2; lia].
    rewrite <- Hsplit in Hitems1. cbn [replicate app] in Hitems1.
    cbn [read_reference]. bind_ok.
    rewrite Hitems1, (assign_at_middle [] R d x) by done. bind_ok.
    eexists. split; [done|]. unfold invariant. rewrite live_mk. cbn [items_ size_ capacity_].
    rewrite <- Hsplit in Hlen1. cbn [app length] in *.
    split; [lia|]. split; [done|]. split; [|done].
    rewrite Hsz1, <- Hempty. done.
  - rewrite to_int_small by lia. unfold to_size_t. rewrite wrap_small by lia.
    rewrite ArrayPtr_new_Ok by (unfold max_alloc; lia). bind_ok.
    rewrite (std_move_spec _ _ _ _ _ L1 L2 (drop (Z.to_nat (size_ v)) (items_ v))
               [] (replicate (Z.to_nat (size_ v - pos)) u) []);
      [| by rewrite app_assoc, Hsplit, <- items_live
       | by rewrite app_nil_r
       | lia | lia | done | rewrite length_replicate; lia ].
    bind_ok. cbn [app]. rewrite app_nil_r.
    replace (size_ v1 - (size_ v - pos) - 1) with pos by lia.
    destruct (L2 ++ replicate 1 d) as [|y D2] eqn:HD2.
    { apply (f_equal length) in HD2. rewrite length_app in HD2. simpl in HD2. lia. }
    assert (HlenD2 : length D2 = length L2).
    { apply (f_equal length) in HD2. rewrite length_app in HD2. simpl in HD2. lia. }
    rewrite <- Hsplit, <- (app_assoc L1 L2), <- (app_assoc L1), HD2 in Hitems1.
    cbn [app] in Hitems1.
    cbn [read_reference]. bind_ok.
    rewrite Hitems1, (assign_at_middle L1 _ y x) by done. bind_ok.
    rewrite (std_move_spec _ _ _ _ _ [] L2 [] (L1 ++ [x]) D2 R);
      [| by rewrite app_nil_r
       | by rewrite <- app_assoc
       | done | lia | rewrite length_app; simpl; lia | done ].
    bind_ok.
    eexists. split; [done|]. unfold invariant. rewrite live_mk. cbn [items_ size_ capacity_].
    rewrite <- Hsplit, !length_app in Hlen1.
    rewrite !length_app. cbn [length].
    split; [lia|]. split; [done|]. split; [|done].
    rewrite (cons_middle x L1 L2), !app_assoc. apply take_app_length'.
    rewrite !length_app. simpl. lia.
Qed.

(** [Insert] reads its argument after [Resize] too. *)
Lemma Insert_dangling pos i v :
  invariant v → 0 ≤ pos ≤ size_ v → size_ v - pos < 2 ^ 31 → can_grow v →
  size_ v = capacity_ v → Insert d u pos (Slot i) v = UB.
Proof.
  intros Hinv Hpos Hint Hgrow Hfull. pose proof (can_grow_size v Hinv Hgrow) as Hsize.
  pose proof Hinv as (Hsz & Hmax & Hlen).
  destruct (Resize_extend d u (size_ v + 1) v Hinv ltac:(lia) (can_grow_extend v Hinv Hgrow))
    as (v1 & HR & _).
  pose proof (live_length v (invariant_in_buffer v Hinv)) as Hlive.
  unfold Insert, begin_, end_. rewrite wrap_small by lia.
  rewrite HR, reallocates_full by done.
  destruct (Z.eqb_spec 0 (size_ v)) as [Hempty|Hne]; [done|].
  rewrite to_int_small by lia. unfold to_size_t. rewrite wrap_small by lia.
  rewrite ArrayPtr_new_Ok by (unfold max_alloc; lia). bind_ok.
  rewrite (std_move_spec _ _ _ _ _ (take (Z.to_nat pos) (live v)) (drop (Z.to_nat pos) (live v))
             (drop (Z.to_nat (size_ v)) (items_ v))
             [] (replicate (Z.to_nat (size_ v - pos)) u) []);
    [| by rewrite app_assoc, take_drop, <- items_live
     | by rewrite app_nil_r
     | rewrite length_take; lia | rewrite length_drop; lia | done
     | rewrite ?length_replicate, ?length_drop; lia ].
  done.
Qed.

End InsertErase.

(** ** Element access *)

Section Access.
Context {T : Type}.
Implicit Types (l : list T) (v : SimpleVector T).

Lemma At_out_of_range i v : At i v = OutOfRange ↔ size_ v ≤ i.
Proof.
  unfold At, deref, load. destruct (Z.geb_spec i (size_ v)) as [Hge|Hlt].
  - split; [lia|done].
  - split; [|lia]. destruct (decide (0 ≤ i)); [|done].
    by destruct (items_ v !! Z.to_nat i).
Qed.

Lemma At_index i v : i < size_ v → At i v = index i v.
Proof.
  intros Hlt. unfold At, index. by destruct (Z.geb_spec i (size_ v)); [lia|].
Qed.

Lemma index_live i v :
  in_buffer v → 0 ≤ i < size_ v →
  ∃ x, index i v = Ok x ∧ live v !! Z.to_nat i = Some x.
Proof.
  intros Hbuf Hi. unfold in_buffer in Hbuf.
  destruct (lookup_lt_is_Some_2 (items_ v) (Z.to_nat i)) as [x Hx]; [lia|].
  exists x. unfold index, deref, load, live. rewrite decide_True by lia.
  rewrite Hx. split; [done|]. rewrite lookup_take_lt by lia. done.
Qed.

End Access.

(** ** Copy and move construction *)

Section Construction.
Context {T : Type}.
Variable d : T.
Variable u : T.
Implicit Types (l : list T) (v : SimpleVector T).

Lemma SimpleVector_fill_spec n x :
  0 ≤ n ≤ max_alloc →
  SimpleVector_fill u n x
  = Ok {| items_ := replicate (Z.to_nat n) x; size_ := n; capacity_ := n |}.
Proof.
  intros Hn. unfold SimpleVector_fill. destruct (Z.gtb_spec n 0) as [Hpos|Hz].
  - rewrite ArrayPtr_new_Ok by lia. bind_ok.
    rewrite (std_fill_spec _ _ _ _ [] (replicate (Z.to_nat n) u) []);
      [| by rewrite app_nil_r | done | rewrite length_replicate; lia ].
    bind_ok. cbn [app]. by rewrite length_replicate, app_nil_r.
  - assert (n = 0) as -> by lia. done.
Qed.

Lemma SimpleVector_init_spec l :
  Z.of_nat (length l) ≤ max_alloc →
  SimpleVector_init u l
  = Ok {| items_ := l; size_ := Z.of_nat (length l); capacity_ := Z.of_nat (length l) |}.
Proof.
  intros Hn. unfold SimpleVector_init. cbv zeta.
  destruct (Z.gtb_spec (Z.of_nat (length l)) 0) as [Hpos|Hz].
  - rewrite ArrayPtr_new_Ok by lia. bind_ok. unfold std_copy.
    rewrite (std_move_spec _ _ _ _ _ [] l [] [] (replicate (length l) u) []);
      [| by rewrite app_nil_r | by rewrite Nat2Z.id, app_nil_r
       | done | lia | done | by rewrite length_replicate ].
    bind_ok. cbn [app]. by rewrite app_nil_r.
  - destruct l; [done|simpl in Hz; lia].
Qed.

(** What the copy constructor builds: a buffer of [size_] slots holding
    the live elements, under the source's [capacity_]. *)
Lemma SimpleVector_copy_spec v :
  in_buffer v → size_ v ≤ max_alloc →
  SimpleVector_copy d u v
  = Ok {| items_ := live v; size_ := size_ v; capacity_ := capacity_ v |}.
Proof.
  intros Hbuf Hn. pose proof (live_length v Hbuf) as Hlive. unfold in_buffer in Hbuf.
  unfold SimpleVector_copy, SimpleVector_sized, GetSize.
  rewrite SimpleVector_fill_spec by lia. bind_ok. cbn [items_].
  unfold std_copy, begin_, end_.
  rewrite (std_move_spec _ _ _ _ _ [] (live v) (drop (Z.to_nat (size_ v)) (items_ v))
             [] (replicate (Z.to_nat (size_ v)) d) []);
    [| apply items_live | by rewrite app_nil_r | done | lia | done
     | rewrite length_replicate; lia ].
  bind_ok. cbn [app]. by rewrite app_nil_r.
Qed.

Lemma SimpleVector_move_spec v :
  SimpleVector_move v = (v, SimpleVector_default).
Proof. by destruct v. Qed.

End Construction.

(** ** Comparison and assignment *)

Section Assignment.
Context {T : Type}.
Variable d : T.
Variable u : T.
Variable Type_eq : T → T → bool.
Implicit Types (l : list T) (v a b : SimpleVector T) (σ : gmap nat (SimpleVector T)).

Lemma op_eq_same this σ : op_eq Type_eq this this σ = Ok true.
Proof. unfold op_eq. by rewrite decide_True. Qed.

Lemma op_eq_equal_contents this rhs σ a b :
  σ !! this = Some a → σ !! rhs = Some b →
  in_buffer a → in_buffer b → equal_contents Type_eq a b →
  op_eq Type_eq this rhs σ = Ok true.
Proof.
  intros Ha Hb Hbufa Hbufb [Hsize Hall]. unfold op_eq.
  destruct (decide (this = rhs)); [done|].
  unfold object. rewrite Ha, Hb. bind_ok. unfold GetSize.
  rewrite (proj2 (Z.eqb_eq _ _) Hsize).
  pose proof (live_length a Hbufa). pose proof (live_length b Hbufb).
  unfold begin_, end_.
  rewrite (std_equal_true Type_eq _ _ _ _ _ [] (live a) (drop (Z.to_nat (size_ a)) (items_ a))
             [] (live b) (drop (Z.to_nat (size_ b)) (items_ b))); try done.
  - apply items_live.
  - apply items_live.
  - lia.
Qed.

Lemma assign_copy_asserts this rhs σ :
  op_eq Type_eq this rhs σ = Ok true → assign_copy d u Type_eq this rhs σ = AssertFail.
Proof. intros H. unfold assign_copy, op_ne. by rewrite H. Qed.

Lemma assign_move_asserts this rhs σ :
  op_eq Type_eq this rhs σ = Ok true → assign_move d u Type_eq this rhs σ = AssertFail.
Proof. intros H. unfold assign_move, op_ne. by rewrite H. Qed.

Lemma assign_copy_completes this rhs σ σ' :
  assign_copy d u Type_eq this rhs σ = Ok σ' → op_eq Type_eq this rhs σ = Ok false.
Proof.
  unfold assign_copy, op_ne.
  destruct (op_eq Type_eq this rhs σ) as [[]| | | | |]; done.
Qed.

Lemma assign_move_completes this rhs σ σ' :
  assign_move d u Type_eq this rhs σ = Ok σ' → op_eq Type_eq this rhs σ = Ok false.
Proof.
  unfold assign_move, op_ne.
  destruct (op_eq Type_eq this rhs σ) as [[]| | | | |]; done.
Qed.

End Assignment.

(** ** The fuel of the growth loop *)

Section GrowthFuel.

Lemma orbit_succ_r k c : orbit (S k) c = orbit k (next_capacity c).
Proof. apply Nat.iter_succ_r. Qed.

Lemma orbit_succ k c : orbit (S k) c = next_capacity (orbit k c).
Proof. done. Qed.

Lemma grow_loop_Diverges f : ∀ n c,
  grow_loop f n c = Diverges ↔ ∀ j, (j ≤ f)%nat → orbit j c < n.
Proof.
  induction f as [|f IH]; intros n c; rewrite grow_loop_unfold.
  - destruct (Z.ltb_spec c n) as [Hlt|Hge]; split; try done.
    + intros _ j Hj. assert (j = 0%nat) as -> by lia. done.
    + intros H. specialize (H 0%nat ltac:(lia)). simpl in H. lia.
  - destruct (Z.ltb_spec c n) as [Hlt|Hge]; split; try done.
    + intros H j Hj. destruct j as [|j]; [done|].
      rewrite orbit_succ_r. apply IH; [done|lia].
    + intros H. apply IH. intros j Hj. rewrite <- orbit_succ_r. apply H. lia.
    + intros H. specialize (H 0%nat ltac:(lia)). simpl in H. lia.
Qed.

Lemma orbit_add (j k : nat) c : orbit (j + k) c = orbit j (orbit k c).
Proof. apply Nat.iter_add. Qed.

Lemma orbit_reaches_zero c :
  0 ≤ c ≤ SIZE_MAX → ∃ j, (j ≤ 64)%nat ∧ orbit j c = 0.
Proof.
  intros Hc.
  assert (Hstep : ∀ i : nat,
    (∃ j, (j ≤ i)%nat ∧ orbit j c = 0) ∨ orbit i c = (c * 2 ^ Z.of_nat i) mod 2 ^ 64).
  { induction i as [|i [(j & Hj & Hz)|Hi]].
    - right. simpl. rewrite Z.mod_small; unfold SIZE_MAX in Hc; lia.
    - left. exists j. split; [lia|done].
    - destruct (Z.eq_dec (orbit i c) 0) as [Hz|Hnz].
      + left. exists i. split; [lia|done].
      + right. rewrite orbit_succ. unfold next_capacity.
        destruct (Z.eqb_spec (orbit i c) 0); [done|].
        unfold wrap. rewrite Hi, Z.mul_mod_idemp_l by lia.
        rewrite Nat2Z.inj_succ, Z.pow_succ_r by lia. f_equal. lia. }
  destruct (Hstep 64%nat) as [?|H64]; [done|].
  exists 64%nat. split; [lia|]. rewrite H64.
  change (Z.of_nat 64) with 64. apply Z.mod_mul. lia.
Qed.

Lemma orbit_period : orbit 65 0 = 0.
Proof. vm_compute. reflexivity. Qed.

Lemma orbit_bounded c :
  0 ≤ c ≤ SIZE_MAX → ∀ k, ∃ j, (j ≤ 129)%nat ∧ orbit k c = orbit j c.
Proof.
  intros Hc. destruct (orbit_reaches_zero c Hc) as (j0 & Hj0 & Hzero).
  induction k as [k IH] using lt_wf_ind.
  destruct (le_lt_dec k 129) as [Hk|Hk]; [by exists k|].
  destruct (IH (k - 65)%nat ltac:(lia)) as (j & Hj & Heq).
  exists j. split; [done|]. rewrite <- Heq.
  assert (Hshift : ∀ a : nat, orbit (a + j0) c = orbit a 0).
  { intros a. by rewrite orbit_add, Hzero. }
  assert (Hperiod : ∀ a : nat, orbit (a + 65) 0 = orbit a 0).
  { intros a. by rewrite orbit_add, orbit_period. }
  replace k with ((k - 65 - j0) + 65 + j0)%nat at 1 by lia.
  rewrite Hshift, Hperiod, <- Hshift. f_equal. lia.
Qed.

(** A growth loop that has not stopped within [grow_fuel] steps never
    stops: [Diverges] stands for a loop that runs forever. *)
Lemma grow_loop_fuel n c :
  0 ≤ c ≤ SIZE_MAX →
  grow_capacity n c = Diverges → ∀ f, grow_loop f n c = Diverges.
Proof.
  intros Hc Hdiv f. unfold grow_capacity, grow_fuel in Hdiv.
  apply grow_loop_Diverges. intros k _.
  destruct (orbit_bounded c Hc k) as (j & Hj & ->).
  eapply grow_loop_Diverges; [exact Hdiv|lia].
Qed.

(** Growing from the null buffer to more than 2^63 elements: the
    capacity wraps from 2^63 to 0 and the loop starts over. *)
Lemma grow_capacity_wraps : grow_capacity (2 ^ 63 + 1) 0 = Diverges.
Proof. vm_compute. reflexivity. Qed.

End GrowthFuel.

(** ** [Insert] and the width of [int] *)

Section InsertInt.
Context {T : Type}.
Variable d : T.
Variable u : T.
Implicit Types (v : SimpleVector T).

(** With 2^31 elements or more from [pos] to the end, [dist] does not hold
    their number: it is negative, and the staging buffer is requested with
    its conversion to [size_t]. *)
Lemma Insert_tail_exceeds_int pos x v :
  size_ v ≠ 0 → 2 ^ 31 ≤ size_ v - pos < 2 ^ 32 →
  Insert d u pos (Outside x) v = BadAlloc.
Proof.
  intros Hne Htail. unfold Insert, begin_, end_.
  destruct (Z.eqb_spec 0 (size_ v)) as [?|_]; [lia|].
  assert (Hdist : to_int (size_ v - pos) = size_ v - pos - 2 ^ 32).
  { unfold to_int. Z.div_mod_to_equations. lia. }
  assert (Hreq : to_size_t (size_ v - pos - 2 ^ 32) = 2 ^ 64 + (size_ v - pos - 2 ^ 32)).
  { unfold to_size_t, wrap. Z.div_mod_to_equations. lia. }
  cbv zeta. rewrite Hdist, Hreq. unfold ArrayPtr_new.
  rewrite decide_False by (unfold max_alloc; lia). done.
Qed.

End InsertInt.

(** ** Operations that keep the invariant *)

Section Invariant.
Context {T : Type}.
Variable d : T.
Variable u : T.
Implicit Types (l : list T) (v : SimpleVector T).

Lemma invariant_default : invariant (@SimpleVector_default T).
Proof. unfold invariant, SIZE_MAX. simpl. lia. Qed.

Lemma SimpleVector_fill_invariant n x :
  0 ≤ n ≤ max_alloc → ∃ v, SimpleVector_fill u n x = Ok v ∧ invariant v.
Proof.
  intros Hn. eexists. split; [by apply SimpleVector_fill_spec|].
  unfold invariant, max_alloc, SIZE_MAX in *. simpl. rewrite length_replicate. lia.
Qed.

Lemma SimpleVector_init_invariant l :
  Z.of_nat (length l) ≤ max_alloc → ∃ v, SimpleVector_init u l = Ok v ∧ invariant v.
Proof.
  intros Hn. eexists. split; [by apply SimpleVector_init_spec|].
  unfold invariant, max_alloc, SIZE_MAX in *. simpl. lia.
Qed.

Lemma Resize_invariant n v :
  invariant v → 0 ≤ n →
  n ≤ capacity_ v ∨ doubled_capacity n (capacity_ v) ≤ max_alloc →
  ∃ v', Resize d u n v = Ok v' ∧ invariant v'.
Proof.
  intros Hinv Hn Halloc. destruct (Z.le_gt_cases n (size_ v)) as [Hle|Hgt].
  - eexists. split; [by apply Resize_shrink|].
    unfold invariant in *. simpl. lia.
  - destruct (Resize_extend d u n v Hinv ltac:(lia) Halloc) as (v' & HR & Hinv' & _).
    by exists v'.
Qed.

Lemma Reserve_invariant n v :
  invariant v → n ≤ max_alloc → ∃ v', Reserve d u n v = Ok v' ∧ invariant v'.
Proof.
  intros Hinv Hn. destruct (Z.le_gt_cases n (capacity_ v)) as [Hle|Hgt].
  - exists v. split; [by apply Reserve_noop|done].
  - eexists. split; [by apply Reserve_grow|].
    destruct Hinv as (Hsz & Hmax & Hlen). unfold invariant, max_alloc, SIZE_MAX in *.
    simpl. rewrite length_app, length_replicate.
    destruct (size_ v =? 0); rewrite ?length_replicate; lia.
Qed.

Lemma PopBack_invariant v :
  invariant v → 0 < size_ v → ∃ v', PopBack v = Ok v' ∧ invariant v'.
Proof.
  intros Hinv Hpos. eexists. split; [by apply PopBack_spec|].
  unfold invariant in *. simpl. lia.
Qed.

Lemma Clear_invariant v : invariant v → invariant (Clear v).
Proof. unfold invariant, Clear. simpl. lia. Qed.

Lemma SimpleVector_move_invariant v :
  invariant v →
  invariant (fst (SimpleVector_move v)) ∧ invariant (snd (SimpleVector_move v)).
Proof.
  intros Hinv. rewrite SimpleVector_move_spec. split; [done|apply invariant_default].
Qed.

Lemma swap_invariant this other (σ σ' : gmap nat (SimpleVector T)) :
  map_Forall (λ _ v, invariant v) σ → swap this other σ = Ok σ' →
  map_Forall (λ _ v, invariant v) σ'.
Proof.
  intros Hall. unfold swap, object.
  destruct (σ !! this) as [a|] eqn:Ha; [|done].
  destruct (σ !! other) as [b|] eqn:Hb; [|done].
  bind_ok. intros [= <-].
  apply map_Forall_insert_2; [by eapply Hall|].
  apply map_Forall_insert_2; [by eapply Hall|done].
Qed.

End Invariant.

(** * The claims *)

Section Claims.
Context {T : Type}.
Variable d : T.
Variable u : T.
Variable Type_eq : T → T → bool.
Implicit Types (l : list T) (v : SimpleVector T) (σ : gmap nat (SimpleVector T)).

(** C1, as amended.  Self-copy-assignment and self-move-assignment never
    complete: both operators begin by asserting [*this != rhs], which fails
    when the operand is the object itself, before any member of the object
    is touched. *)
Theorem self_assignment_asserts (a : addr) σ :
  assign_copy d u Type_eq a a σ = AssertFail
  ∧ assign_move d u Type_eq a a σ = AssertFail.
Proof.
  split.
  - apply assign_copy_asserts, op_eq_same.
  - apply assign_move_asserts, op_eq_same.
Qed.

(** C3.  [Resize(new_size)] on a vector that satisfies the invariant:
    when [new_size <= size] only the size changes; when
    [size < new_size <= capacity] the slots from [size] to [new_size] are
    reset to [Type()] and nothing else changes; when
    [new_size > capacity] the capacity becomes the doubled capacity of
    the specification, the buffer holds the live elements in order,
    followed by [Type()] in the slots from [size] to [new_size], written by
    the loop of [Resize], and by untouched fresh slots up to the capacity,
    and the size is [new_size].  The last case allocates, and needs the
    doubled capacity to be allocatable. *)
Theorem Resize_correct v (new_size : Z) :
  invariant v →
  (new_size ≤ size_ v →
     Resize d u new_size v
     = Ok {| items_ := items_ v; size_ := new_size; capacity_ := capacity_ v |})
  ∧ (size_ v < new_size ≤ capacity_ v →
     Resize d u new_size v
     = Ok {| items_ := live v ++ replicate (Z.to_nat (new_size - size_ v)) d
                        ++ drop (Z.to_nat new_size) (items_ v);
             size_ := new_size; capacity_ := capacity_ v |})
  ∧ (capacity_ v < new_size →
     doubled_capacity new_size (capacity_ v) ≤ max_alloc →
     Resize d u new_size v
     = Ok {| items_ := live v ++ replicate (Z.to_nat (new_size - size_ v)) d
                        ++ replicate
                             (Z.to_nat (doubled_capacity new_size (capacity_ v) - new_size)) u;
             size_ := new_size;
             capacity_ := doubled_capacity new_size (capacity_ v) |}).
Proof.
  intros Hinv. split; [|split].
  - apply Resize_shrink.
  - by apply Resize_within.
  - by apply Resize_grow.
Qed.

(** C4.  [At(i)] throws [std::out_of_range] exactly when [i >= size], in
    particular for every index of an empty vector; for [i < size] it is
    [operator[](i)], which for a live slot is the element stored there. *)
Theorem At_correct v (i : Z) :
  (At i v = OutOfRange ↔ size_ v ≤ i)
  ∧ (size_ v = 0 → 0 ≤ i → At i v = OutOfRange)
  ∧ (i < size_ v → At i v = index i v)
  ∧ (in_buffer v → 0 ≤ i < size_ v →
       ∃ x, At i v = Ok x ∧ index i v = Ok x ∧ live v !! Z.to_nat i = Some x).
Proof.
  split; [apply At_out_of_range|]. split; [|split].
  - intros Hz Hi. apply At_out_of_range. lia.
  - apply At_index.
  - intros Hbuf Hi. destruct (index_live i v Hbuf Hi) as (x & Hx & Hlive).
    exists x. rewrite At_index by lia. done.
Qed.

(** C6.  [Erase(pos)] asserts [size > 0].  On a vector that satisfies the
    invariant and a live position it removes the element at [pos], moving
    the later elements one slot earlier, decrements the size, keeps the
    capacity, and returns [pos]: the slot of the element that followed the
    erased one, or the new end when the last element was erased. *)
Theorem Erase_correct v (pos : Z) :
  (size_ v ≤ 0 → Erase pos v = AssertFail)
  ∧ (invariant v → 0 ≤ pos < size_ v →
     ∃ v', Erase pos v = Ok (pos, v')
       ∧ size_ v' = size_ v - 1 ∧ capacity_ v' = capacity_ v
       ∧ live v' = take (Z.to_nat pos) (live v) ++ drop (Z.to_nat (pos + 1)) (live v)
       ∧ (pos + 1 < size_ v → live v' !! Z.to_nat pos = live v !! Z.to_nat (pos + 1))
       ∧ (pos + 1 = size_ v → pos = end_ v')).
Proof.
  split.
  - intros Hz. unfold Erase. by rewrite gtb_false.
  - intros Hinv Hpos.
    destruct (Erase_spec pos v Hinv Hpos) as (v' & HE & Hinv' & Hsz & Hcap & Hlive).
    exists v'. repeat split; try done.
    + intros _. rewrite Hlive.
      pose proof (live_length v (invariant_in_buffer v Hinv)).
      rewrite lookup_app_r by (rewrite length_take; lia).
      rewrite length_take, lookup_drop. f_equal. lia.
    + unfold end_. lia.
Qed.

(** C7.  [Reserve(new_capacity)] changes nothing when
    [new_capacity <= capacity].  Otherwise, on a vector that satisfies the
    invariant and for a capacity that can be allocated, the new buffer has
    exactly [new_capacity] slots, holds the live elements in order, and has
    [Type()] in every slot from the old capacity on: the loop of [Reserve]
    writes it there, over whatever the fresh slots held.  The size is the
    same in both cases. *)
Theorem Reserve_correct v (new_capacity : Z) :
  invariant v →
  (new_capacity ≤ capacity_ v → Reserve d u new_capacity v = Ok v)
  ∧ (capacity_ v < new_capacity → new_capacity ≤ max_alloc →
     ∃ v', Reserve d u new_capacity v = Ok v'
       ∧ size_ v' = size_ v ∧ capacity_ v' = new_capacity
       ∧ Z.of_nat (length (items_ v')) = new_capacity
       ∧ live v' = live v
       ∧ drop (Z.to_nat (capacity_ v)) (items_ v')
         = replicate (Z.to_nat (new_capacity - capacity_ v)) d).
Proof.
  intros Hinv. split; [apply Reserve_noop|].
  intros Hgt Halloc. pose proof Hinv as (Hsz & Hmax & Hlen).
  eexists. split; [by apply Reserve_grow|]. cbn [items_ size_ capacity_]. rewrite live_mk.
  set (kept := if size_ v =? 0 then replicate (Z.to_nat (capacity_ v)) u else items_ v).
  assert (Hkept : Z.of_nat (length kept) = capacity_ v).
  { unfold kept. destruct (size_ v =? 0); [rewrite length_replicate|]; lia. }
  split; [done|]. split; [done|]. split; [|split].
  - rewrite length_app, length_replicate. lia.
  - rewrite take_app_le by lia. unfold kept, live.
    destruct (Z.eqb_spec (size_ v) 0) as [->|]; done.
  - apply drop_app_length'. lia.
Qed.

(** C8.  Move construction hands the buffer, size and capacity of the
    source to the new object and leaves the source as a default-constructed
    vector: size 0, capacity 0, satisfying the invariant, and usable (an
    element can be pushed onto it). *)
Theorem SimpleVector_move_correct v :
  let (t, s) := SimpleVector_move v in
  items_ t = items_ v ∧ size_ t = size_ v ∧ capacity_ t = capacity_ v
  ∧ live t = live v
  ∧ s = SimpleVector_default ∧ size_ s = 0 ∧ capacity_ s = 0
  ∧ invariant s
  ∧ ∀ x, PushBack d u (Outside x) s = Ok {| items_ := [x]; size_ := 1; capacity_ := 1 |}.
Proof.
  rewrite SimpleVector_move_spec. repeat split; done.
Qed.

(** C10.  Both assignment operators begin by asserting [*this != rhs].
    When the operands are equal in value (one object, or two objects of
    equal size whose live elements are pairwise equal) the assertion fails
    and nothing is copied or moved; an assignment that completes had
    operands that [operator==] tells apart. *)
Theorem assignment_asserts_difference σ (this rhs : addr) :
  (equal_values Type_eq σ this rhs →
     assign_copy d u Type_eq this rhs σ = AssertFail
     ∧ assign_move d u Type_eq this rhs σ = AssertFail)
  ∧ (∀ σ', assign_copy d u Type_eq this rhs σ = Ok σ'
           ∨ assign_move d u Type_eq this rhs σ = Ok σ' →
           op_eq Type_eq this rhs σ = Ok false).
Proof.
  split.
  - intros Heq. assert (op_eq Type_eq this rhs σ = Ok true) as Htrue.
    { destruct Heq as [->|(a & b & Ha & Hb & Hbufa & Hbufb & Hcontents)].
      - apply op_eq_same.
      - by eapply op_eq_equal_contents. }
    split; [by apply assign_copy_asserts|by apply assign_move_asserts].
  - intros σ' [H|H].
    + by eapply assign_copy_completes.
    + by eapply assign_move_completes.
Qed.

End Claims.

(** * The claims on concrete vectors *)

Lemma invariant_v123 : invariant v123.
Proof. unfold invariant, SIZE_MAX. simpl. lia. Qed.

Lemma invariant_v123_reserved : invariant v123_reserved.
Proof. unfold invariant, SIZE_MAX. simpl. lia. Qed.

(** C1, as stated, fails on one object holding [{1, 2, 3}]: neither
    self-assignment completes and leaves the object as it was. *)
Lemma self_assignment_not_a_no_op :
  ¬ (∃ σ', assign_copy 0 int_new Z.eqb 0%nat 0%nat one_object = Ok σ'
           ∧ σ' !! 0%nat = Some v123)
  ∧ ¬ (∃ σ', assign_move 0 int_new Z.eqb 0%nat 0%nat one_object = Ok σ'
             ∧ σ' !! 0%nat = Some v123).
Proof. split; intros (σ' & H & _); vm_compute in H; discriminate H. Qed.

(** C2.  [{1, 2, 3}] with capacity 4 (reached by [Reserve(4)]) is copied
    into a buffer of 3 slots recorded as capacity 4: size, capacity and
    live elements agree with the source, the buffer does not have
    [capacity_] slots, and [PushBack] on the copy writes outside it. *)
Theorem copy_buffer_shorter_than_capacity :
  (v ← SimpleVector_init int_new [1; 2; 3]; Reserve 0 int_new 4 v) = Ok v123_reserved
  ∧ SimpleVector_copy 0 int_new v123_reserved = Ok v123_copied
  ∧ size_ v123_copied = size_ v123_reserved
  ∧ capacity_ v123_copied = capacity_ v123_reserved
  ∧ live v123_copied = live v123_reserved
  ∧ Z.of_nat (length (items_ v123_copied)) = 3
  ∧ capacity_ v123_copied = 4
  ∧ PushBack 0 int_new (Outside 4) v123_copied = UB.
Proof. repeat split; vm_compute; reflexivity. Qed.

(** C9.  The source satisfies the invariant, its copy does not; the same
    holds for the target of a copy assignment. *)
Theorem copy_breaks_invariant :
  invariant v123_reserved
  ∧ SimpleVector_copy 0 int_new v123_reserved = Ok v123_copied
  ∧ ¬ invariant v123_copied
  ∧ map_Forall (λ _ v, invariant v) different_objects
  ∧ (σ ← assign_copy 0 int_new Z.eqb 0%nat 1%nat different_objects; object σ 0%nat)
    = Ok v123_copied.
Proof.
  split; [apply invariant_v123_reserved|]. split; [vm_compute; reflexivity|].
  split; [|split].
  - unfold invariant. simpl. lia.
  - unfold different_objects. apply map_Forall_insert_2; [apply invariant_v123_reserved|].
    apply map_Forall_singleton. unfold invariant, SIZE_MAX. simpl. lia.
  - vm_compute. reflexivity.
Qed.

(** C5.  A vector of 2^31 elements satisfies the invariant and has room to
    grow, and [Insert] at its first position fails: the number of elements
    to stage, 2^31, is stored in an [int]. *)
Theorem Insert_int_overflow :
  invariant v_2_31 ∧ can_grow v_2_31 ∧ 0 ≤ 0 ≤ size_ v_2_31
  ∧ Insert 0 int_new 0 (Outside 9) v_2_31 = BadAlloc.
Proof.
  split; [|split; [|split]].
  - unfold invariant, v_2_31, SIZE_MAX. cbn [items_ size_ capacity_].
    rewrite length_replicate. lia.
  - right. unfold v_2_31. cbn [size_ capacity_]. vm_compute. discriminate.
  - unfold v_2_31. cbn [size_]. lia.
  - apply Insert_tail_exceeds_int; unfold v_2_31; cbn [size_]; lia.
Qed.

(** Where the tail fits an [int], the insertions of the specification. *)
Lemma Insert_examples :
  Insert 0 int_new 0 (Outside 9) v123 = Ok (0, {| items_ := [9; 1; 2; 3; 7; 7]; size_ := 4; capacity_ := 6 |})
  ∧ Insert 0 int_new 1 (Outside 9) v123 = Ok (1, {| items_ := [1; 9; 2; 3; 7; 7]; size_ := 4; capacity_ := 6 |})
  ∧ Insert 0 int_new 3 (Outside 9) v123 = Ok (3, {| items_ := [1; 2; 3; 9; 7; 7]; size_ := 4; capacity_ := 6 |})
  ∧ Insert 0 int_new 0 (Outside 9) SimpleVector_default = Ok (0, {| items_ := [9]; size_ := 1; capacity_ := 1 |}).
Proof. repeat split; vm_compute; reflexivity. Qed.

Lemma Resize_correct_witness :
  Resize 0 int_new 2 v123 = Ok {| items_ := [1; 2; 3]; size_ := 2; capacity_ := 3 |}
  ∧ Resize 0 int_new 4 v123_reserved = Ok {| items_ := [1; 2; 3; 0]; size_ := 4; capacity_ := 4 |}
  ∧ Resize 0 int_new 5 v123 = Ok {| items_ := [1; 2; 3; 0; 0; 7]; size_ := 5; capacity_ := 6 |}.
Proof.
  split; [|split].
  - apply (proj1 (Resize_correct 0 int_new v123 2 invariant_v123)). simpl. lia.
  - apply (proj1 (proj2 (Resize_correct 0 int_new v123_reserved 4 invariant_v123_reserved))).
    simpl. lia.
  - apply (proj2 (proj2 (Resize_correct 0 int_new v123 5 invariant_v123))).
    + simpl. lia.
    + vm_compute. discriminate.
Defined.

Lemma At_correct_witness :
  At 1 v123 = index 1 v123
  ∧ (∃ x, At 1 v123 = Ok x ∧ index 1 v123 = Ok x ∧ live v123 !! Z.to_nat 1 = Some x)
  ∧ At 3 v123 = OutOfRange
  ∧ At 0 (@SimpleVector_default Z) = OutOfRange.
Proof.
  split; [|split; [|split]].
  - apply (proj1 (proj2 (proj2 (At_correct v123 1)))). simpl. lia.
  - apply (proj2 (proj2 (proj2 (At_correct v123 1)))).
    + unfold in_buffer. simpl. lia.
    + simpl. lia.
  - apply (proj1 (At_correct v123 3)). simpl. lia.
  - apply (proj1 (proj2 (At_correct SimpleVector_default 0))); [reflexivity|lia].
Defined.

Lemma Erase_correct_witness :
  (∃ v', Erase 0 v123 = Ok (0, v') ∧ live v' = [2; 3])
  ∧ (∃ v', Erase 2 v123 = Ok (2, v') ∧ live v' = [1; 2] ∧ 2 = end_ v')
  ∧ Erase 0 (@SimpleVector_default Z) = AssertFail.
Proof.
  split; [|split].
  - destruct (proj2 (Erase_correct v123 0) invariant_v123)
      as (v' & HE & _ & _ & Hlive & _); [simpl; lia|].
    exists v'. split; [exact HE|exact Hlive].
  - destruct (proj2 (Erase_correct v123 2) invariant_v123)
      as (v' & HE & _ & _ & Hlive & _ & Hend); [simpl; lia|].
    exists v'. split; [exact HE|]. split; [exact Hlive|]. apply Hend. reflexivity.
  - apply (proj1 (Erase_correct SimpleVector_default 0)). simpl. lia.
Defined.

Lemma Reserve_correct_witness :
  Reserve 0 int_new 2 v123 = Ok v123
  ∧ ∃ v', Reserve 0 int_new 5 v123 = Ok v' ∧ size_ v' = 3 ∧ capacity_ v' = 5
          ∧ live v' = [1; 2; 3] ∧ drop 3 (items_ v') = [0; 0].
Proof.
  split.
  - apply (proj1 (Reserve_correct 0 int_new v123 2 invariant_v123)). simpl. lia.
  - destruct (proj2 (Reserve_correct 0 int_new v123 5 invariant_v123))
      as (v' & HR & Hsz & Hcap & _ & Hlive & Hdrop);
      [simpl; lia|vm_compute; discriminate|].
    exists v'. split; [exact HR|]. split; [exact Hsz|]. split; [exact Hcap|].
    split; [exact Hlive|exact Hdrop].
Defined.

Lemma equal_values_equal_objects : equal_values Z.eqb equal_objects 0%nat 1%nat.
Proof.
  right. exists v123, v123_reserved. split; [reflexivity|]. split; [reflexivity|].
  split; [unfold in_buffer; simpl; lia|]. split; [unfold in_buffer; simpl; lia|].
  split; [reflexivity|]. unfold live. simpl. repeat constructor.
Defined.

Lemma assignment_asserts_difference_witness :
  (assign_copy 0 int_new Z.eqb 0%nat 1%nat equal_objects = AssertFail
   ∧ assign_move 0 int_new Z.eqb 0%nat 1%nat equal_objects = AssertFail)
  ∧ (assign_copy 0 int_new Z.eqb 0%nat 0%nat one_object = AssertFail
     ∧ assign_move 0 int_new Z.eqb 0%nat 0%nat one_object = AssertFail)
  ∧ (is_Ok (assign_copy 0 int_new Z.eqb 0%nat 1%nat different_objects)
     ∧ op_eq Z.eqb 0%nat 1%nat different_objects = Ok false).
Proof.
  split; [|split].
  - apply (proj1 (assignment_asserts_difference 0 int_new Z.eqb equal_objects 0%nat 1%nat)).
    apply equal_values_equal_objects.
  - apply (proj1 (assignment_asserts_difference 0 int_new Z.eqb one_object 0%nat 0%nat)).
    left. reflexivity.
  - assert (H : assign_copy 0 int_new Z.eqb 0%nat 1%nat different_objects
                = Ok (<[ 0%nat := v123_copied ]> different_objects))
      by (vm_compute; reflexivity).
    split; [eexists; exact H|].
    apply (proj2 (assignment_asserts_difference 0 int_new Z.eqb different_objects 0%nat 1%nat)
             (<[ 0%nat := v123_copied ]> different_objects)).
    left. exact H.
Defined.

(** * Further properties of the operations *)

(** ** Appending *)

Section Appending.
Context {T : Type}.
Variable d : T.
Variable u : T.
Implicit Types (l xs : list T) (x : T) (v : SimpleVector T).

Lemma Resize_size n v v' : Resize d u n v = Ok v' → size_ v' = n.
Proof.
  unfold Resize. destruct (n >? size_ v); [|by intros [= <-]].
  destruct (n >? capacity_ v).
  - destruct (grow_capacity n (capacity_ v)) as [c| | | | |]; try done. bind_ok.
    destruct (ArrayPtr_new u c) as [temp| | | | |]; try done. bind_ok.
    destruct (if negb (is_null (items_ v)) then _ else _) as [temp'| | | | |]; try done.
    bind_ok. cbn [items_ size_ capacity_].
    destruct (std_fill _ _ _ _) as [items| | | | |]; try done. by intros [= <-].
  - bind_ok. destruct (std_fill _ _ _ _) as [items| | | | |]; try done. by intros [= <-].
Qed.

(** A full buffer grows to twice its capacity, the null buffer to 1. *)
Lemma doubled_capacity_full cap :
  0 ≤ cap → doubled_capacity (cap + 1) cap = if cap =? 0 then 1 else 2 * cap.
Proof.
  intros Hcap. unfold doubled_capacity.
  destruct (Z.eqb_spec cap 0) as [->|Hne]; [done|].
  rewrite Z.max_r by lia. cbn [doubling].
  destruct (Z.ltb_spec cap (cap + 1)); [|lia].
  destruct (Z.to_nat (Z.log2_up (cap + 1))) as [|f]; cbn [doubling]; [lia|].
  destruct (Z.ltb_spec (cap * 2) (cap + 1)); lia.
Qed.

(** X1.  [PushBack] on a vector that satisfies the invariant and has room.
    Given a reference to an object that is not a slot of the vector, it
    appends the value of that object: the live elements are the old ones
    followed by the new one, the size grows by one, and the invariant is
    kept; the capacity is unchanged while a free slot exists, a full buffer
    doubles, and the null buffer becomes a buffer of one slot.  Given a
    reference to a slot of the vector itself, on a full vector, it has
    undefined behaviour: the argument is read after [Resize] has replaced
    and freed the buffer the reference points into. *)
Theorem PushBack_appends x v :
  invariant v → can_grow v →
  (∃ v', PushBack d u (Outside x) v = Ok v' ∧ invariant v'
         ∧ size_ v' = size_ v + 1 ∧ live v' = live v ++ [x]
         ∧ capacity_ v' = (if size_ v <? capacity_ v then capacity_ v
                           else if capacity_ v =? 0 then 1 else 2 * capacity_ v))
  ∧ (size_ v = capacity_ v → ∀ i, PushBack d u (Slot i) v = UB).
Proof.
  intros Hinv Hgrow. split; [|intros Hfull i; by apply PushBack_dangling].
  destruct (PushBack_spec d u x v Hinv Hgrow) as (v' & HP & Hinv' & Hsz & Hlive & Hcap).
  exists v'. do 4 (split; [done|]). rewrite Hcap.
  destruct Hinv as (Hs & _ & _).
  destruct (Z.leb_spec (size_ v + 1) (capacity_ v)), (Z.ltb_spec (size_ v) (capacity_ v));
    try lia.
  assert (size_ v = capacity_ v) as -> by lia. apply doubled_capacity_full. lia.
Qed.

(** X2.  [PopBack] fails its assertion on an empty vector.  On a vector
    that satisfies the invariant and has room it undoes a [PushBack] of a
    value that is not stored in the vector itself: size and live elements
    are those before the push (the capacity is the one the push left). *)
Theorem PushBack_PopBack x v :
  (size_ v ≤ 0 → PopBack v = AssertFail)
  ∧ (invariant v → can_grow v →
     ∃ v1 v2, PushBack d u (Outside x) v = Ok v1 ∧ PopBack v1 = Ok v2
       ∧ size_ v2 = size_ v ∧ live v2 = live v
       ∧ capacity_ v2 = capacity_ v1 ∧ invariant v2).
Proof.
  split.
  - intros Hz. unfold PopBack. by rewrite gtb_false.
  - intros Hinv Hgrow.
    destruct (PushBack_spec d u x v Hinv Hgrow) as (v1 & HP & Hinv1 & Hsz & Hlive & Hcap).
    pose proof (live_length v (invariant_in_buffer v Hinv)) as Hlen.
    destruct Hinv as (Hs & _ & _).
    exists v1. eexists. split; [done|]. split; [apply PopBack_spec; [done|lia]|].
    rewrite live_mk. cbn [size_ capacity_]. split; [lia|]. split; [|split; [done|]].
    + replace (take (Z.to_nat (size_ v1 - 1)) (items_ v1))
        with (take (Z.to_nat (size_ v1 - 1)) (live v1)).
      * rewrite Hlive. apply take_app_length'. lia.
      * unfold live. rewrite take_take. f_equal. lia.
    + destruct Hinv1 as (? & ? & ?). unfold invariant. cbn [items_ size_ capacity_]. lia.
Qed.

(** Pushing a list into free slots does not reallocate. *)
Lemma PushBack_all_within xs : ∀ v,
  invariant v → size_ v + Z.of_nat (length xs) ≤ capacity_ v →
  ∃ v', PushBack_all d u xs v = Ok v' ∧ invariant v'
        ∧ live v' = live v ++ xs ∧ size_ v' = size_ v + Z.of_nat (length xs)
        ∧ capacity_ v' = capacity_ v.
Proof.
  induction xs as [|x xs IH]; intros v Hinv Hroom.
  - exists v. rewrite app_nil_r. cbn [length PushBack_all].
    do 3 (split; [done|]). split; [lia|done].
  - cbn [length] in Hroom. cbn [PushBack_all].
    destruct (PushBack_spec d u x v Hinv) as (v1 & HP & Hinv1 & Hsz & Hlive & Hcap);
      [left; lia|].
    rewrite HP. bind_ok.
    destruct (Z.leb_spec (size_ v + 1) (capacity_ v)); [|lia].
    destruct (IH v1 Hinv1) as (v' & HA & Hinv' & Hlive' & Hsz' & Hcap'); [lia|].
    exists v'. split; [done|]. split; [done|].
    rewrite Hlive', Hlive, <- app_assoc. cbn [length]. split; [done|]. split; lia.
Qed.

(** Pushing a list onto a vector built by pushes alone: the capacity stays
    the least power of two that holds the elements. *)
Lemma PushBack_all_pow2 xs : ∀ v,
  invariant v →
  capacity_ v = (if size_ v =? 0 then 0 else 2 ^ Z.log2_up (size_ v)) →
  size_ v + Z.of_nat (length xs) ≤ 2 ^ 62 →
  ∃ v', PushBack_all d u xs v = Ok v' ∧ invariant v'
        ∧ live v' = live v ++ xs ∧ size_ v' = size_ v + Z.of_nat (length xs)
        ∧ capacity_ v' = (if size_ v' =? 0 then 0 else 2 ^ Z.log2_up (size_ v')).
Proof.
  induction xs as [|x xs IH]; intros v Hinv Hpow Hmax.
  - exists v. rewrite app_nil_r, Z.add_0_r. done.
  - cbn [length] in Hmax. cbn [PushBack_all].
    pose proof Hinv as (Hs & _ & _).
    assert (Hgrow : can_grow v).
    { destruct (Z.lt_ge_cases (size_ v) (capacity_ v)); [by left|right].
      assert (size_ v = capacity_ v) as -> by lia.
      rewrite doubled_capacity_full by lia. unfold max_alloc.
      destruct (capacity_ v =? 0); lia. }
    destruct (PushBack_spec d u x v Hinv Hgrow) as (v1 & HP & Hinv1 & Hsz & Hlive & Hcap).
    rewrite HP. bind_ok.
    destruct (IH v1 Hinv1) as (v' & HA & Hinv' & Hlive' & Hsz' & Hcap'); [|lia|].
    { rewrite Hcap, Hsz. destruct (Z.eqb_spec (size_ v + 1) 0); [lia|].
      destruct (Z.eq_dec (size_ v) 0) as [Hz|Hnz].
      - rewrite Hz in *. rewrite Hpow. done.
      - assert (Hpow' : capacity_ v = 2 ^ Z.log2_up (size_ v)).
        { by rewrite (proj2 (Z.eqb_neq _ _) Hnz) in Hpow. }
        pose proof (Z.log2_up_nonneg (size_ v)) as Hk.
        destruct (Z.leb_spec (size_ v + 1) (capacity_ v)) as [Hle|Hgt].
        + rewrite Hpow'. f_equal. apply Z.le_antisymm.
          * apply Z.log2_up_le_mono. lia.
          * apply Z.log2_up_le_pow2; lia.
        + replace (capacity_ v) with (size_ v) by lia.
          rewrite doubled_capacity_full by lia.
          destruct (Z.eqb_spec (size_ v) 0); [lia|].
          transitivity (2 ^ Z.log2_up (Z.succ (2 ^ Z.log2_up (size_ v)))).
          * rewrite Z.log2_up_succ_pow2, Z.pow_succ_r by done. lia.
          * f_equal. f_equal. lia. }
    exists v'. split; [done|]. split; [done|].
    rewrite Hlive', Hlive, <- app_assoc. cbn [length]. split; [done|]. split; [lia|done].
Qed.

(** X3.  Pushing the elements of a non-empty list, one by one, onto a
    default-constructed vector yields a vector that holds the list, whose
    capacity is the least power of two not below the number of elements:
    the capacity only ever doubles. *)
Theorem PushBack_all_from_empty xs :
  xs ≠ [] → Z.of_nat (length xs) ≤ 2 ^ 62 →
  ∃ v, PushBack_all d u xs SimpleVector_default = Ok v ∧ invariant v
       ∧ live v = xs ∧ size_ v = Z.of_nat (length xs)
       ∧ capacity_ v = 2 ^ Z.log2_up (Z.of_nat (length xs)).
Proof.
  intros Hne Hmax.
  destruct (PushBack_all_pow2 xs SimpleVector_default) as (v & HA & Hinv & Hlive & Hsz & Hcap);
    [apply invariant_default|done|simpl; lia|].
  exists v. cbn [size_ SimpleVector_default] in Hsz. rewrite Z.add_0_l in Hsz.
  rewrite Hsz in Hcap.
  assert (Z.of_nat (length xs) ≠ 0) as Hnz by (destruct xs; [done|simpl; lia]).
  rewrite (proj2 (Z.eqb_neq _ _) Hnz) in Hcap. done.
Qed.

(** X4.  [SimpleVector(Reserve(n))] builds an empty vector of capacity [n];
    pushing up to [n] elements onto it fills the reserved slots without
    changing the capacity. *)
Theorem reserved_then_PushBack_all (n : Z) xs :
  0 ≤ n ≤ max_alloc → Z.of_nat (length xs) ≤ n →
  ∃ v0 v, SimpleVector_reserved d u n = Ok v0
      ∧ invariant v0 ∧ size_ v0 = 0 ∧ capacity_ v0 = n
      ∧ PushBack_all d u xs v0 = Ok v
      ∧ invariant v ∧ live v = xs ∧ capacity_ v = n.
Proof.
  intros Hn Hlen. unfold SimpleVector_reserved.
  destruct (Reserve_invariant d u n SimpleVector_default) as (v0 & HR & Hinv0);
    [apply invariant_default|lia|].
  assert (size_ v0 = 0 ∧ capacity_ v0 = n) as [Hsz0 Hcap0].
  { destruct (Z.le_gt_cases n 0) as [Hle|Hgt].
    - rewrite Reserve_noop in HR by (simpl; lia). injection HR as <-. simpl. lia.
    - rewrite Reserve_grow in HR by (try apply invariant_default; simpl; lia).
      injection HR as <-. done. }
  destruct (PushBack_all_within xs v0 Hinv0) as (v & HA & Hinv & Hlive & _ & Hcap); [lia|].
  exists v0, v. do 6 (split; [done|]). split; [|lia].
  rewrite Hlive. unfold live. rewrite Hsz0. done.
Qed.

End Appending.

(** ** Inserting and erasing *)

Section Positions.
Context {T : Type}.
Variable d : T.
Variable u : T.
Implicit Types (l xs : list T) (x : T) (v : SimpleVector T).

(** What [At] returns is what the live elements hold. *)
Lemma At_live i v :
  in_buffer v → 0 ≤ i →
  At i v = match live v !! Z.to_nat i with Some x => Ok x | None => OutOfRange end.
Proof.
  intros Hbuf Hi. pose proof (live_length v Hbuf) as Hlen.
  destruct (Z.lt_ge_cases i (size_ v)) as [Hlt|Hge].
  - destruct (index_live i v Hbuf ltac:(lia)) as (x & Hx & Hlive).
    rewrite At_index, Hx, Hlive by done. done.
  - rewrite (proj2 (At_out_of_range i v)) by lia.
    rewrite lookup_ge_None_2 by lia. done.
Qed.

(** Moving an empty range writes nothing. *)
Lemma std_move_empty (src dst : list T) (first d_first : Z) :
  0 ≤ first → 0 ≤ d_first → std_move src first first dst d_first = Ok dst.
Proof.
  intros H1 H2. unfold std_move. rewrite decide_True by lia.
  by rewrite Z.sub_diag.
Qed.

(** X5.  [Insert] on a vector that satisfies the invariant and has room, at
    a position with fewer than 2^31 elements from it to the end.  Given a
    reference to an object that is not a slot of the vector, the value of
    that object is read back at the position, the elements before it are
    where they were, and each element from the position on is one slot
    later.  Given a reference to a slot of the vector itself, on a full
    vector, it has undefined behaviour: the argument is read after [Resize]
    has replaced and freed the buffer the reference points into. *)
Theorem Insert_shifts pos x v :
  invariant v → 0 ≤ pos ≤ size_ v → size_ v - pos < 2 ^ 31 → can_grow v →
  (∃ v', Insert d u pos (Outside x) v = Ok (pos, v') ∧ invariant v'
     ∧ size_ v' = size_ v + 1
     ∧ At pos v' = Ok x
     ∧ (∀ i, 0 ≤ i < pos → At i v' = At i v)
     ∧ (∀ i, pos ≤ i < size_ v → At (i + 1) v' = At i v))
  ∧ (size_ v = capacity_ v → ∀ i, Insert d u pos (Slot i) v = UB).
Proof.
  intros Hinv Hpos Hint Hgrow. split; [|intros Hfull i; by apply Insert_dangling].
  destruct (Insert_spec d u pos x v Hinv Hpos Hint Hgrow)
    as (v' & HI & Hinv' & Hsz & Hlive & _).
  pose proof (invariant_in_buffer v Hinv) as Hbuf.
  pose proof (invariant_in_buffer v' Hinv') as Hbuf'.
  pose proof (live_length v Hbuf) as Hlen.
  exists v'. do 3 (split; [done|]).
  assert (Htake : length (take (Z.to_nat pos) (live v)) = Z.to_nat pos).
  { rewrite length_take. lia. }
  split; [|split].
  - rewrite At_live, Hlive by (done || lia).
    rewrite list_lookup_middle by done. done.
  - intros i Hi. rewrite !At_live, Hlive by (done || lia).
    rewrite lookup_app_l by lia. rewrite lookup_take_lt by lia. done.
  - intros i Hi. rewrite !At_live, Hlive by (done || lia).
    rewrite lookup_app_r by lia. rewrite Htake.
    replace (Z.to_nat (i + 1) - Z.to_nat pos)%nat with (S (Z.to_nat i - Z.to_nat pos)) by lia.
    simpl. rewrite lookup_drop.
    replace (Z.to_nat pos + (Z.to_nat i - Z.to_nat pos))%nat with (Z.to_nat i) by lia.
    done.
Qed.

(** X6.  [Insert] at the end position is [PushBack], whatever the argument
    refers to: the same state, or the same failure, and the returned
    position is the old size. *)
Theorem Insert_at_end_is_PushBack (r : reference T) v :
  0 ≤ size_ v < SIZE_MAX →
  Insert d u (size_ v) r v = (v' ← PushBack d u r v; Ok (size_ v, v')).
Proof.
  intros Hsize. unfold Insert, PushBack, begin_, end_.
  rewrite wrap_small by lia.
  destruct (Z.eqb_spec 0 (size_ v)) as [Hempty|Hne].
  - destruct (Resize d u (size_ v + 1) v) as [v1| | | | |] eqn:HR; try done.
    pose proof (Resize_size d u _ _ _ HR) as Hsz1. bind_ok.
    destruct (read_reference r _ (items_ v1)) as [x| | | | |]; try done. bind_ok.
    replace (size_ v1 - 1) with 0 by lia.
    destruct (assign_at (items_ v1) 0 x); try done. bind_ok. by rewrite <- Hempty.
  - rewrite Z.sub_diag. change (to_int 0) with 0. change (to_size_t 0) with 0.
    rewrite ArrayPtr_new_Ok by (unfold max_alloc; lia). bind_ok.
    rewrite std_move_empty by lia. bind_ok.
    destruct (Resize d u (size_ v + 1) v) as [v1| | | | |] eqn:HR; try done.
    pose proof (Resize_size d u _ _ _ HR) as Hsz1. bind_ok.
    destruct (read_reference r _ (items_ v1)) as [x| | | | |]; try done. bind_ok.
    replace (size_ v1 - 0 - 1) with (size_ v1 - 1) by lia.
    destruct (assign_at (items_ v1) (size_ v1 - 1) x) as [items| | | | |]; try done.
    bind_ok. change (0 + 0) with 0. rewrite std_move_empty by lia. bind_ok.
    do 2 f_equal. lia.
Qed.

(** X7.  On a vector that satisfies the invariant and has room, [Insert]
    of a value that is not stored in the vector itself, at a position with
    fewer than 2^31 elements from it to the end, is undone by [Erase] at
    that position: the live elements and the size are those before the
    insertion. *)
Theorem Insert_then_Erase pos x v :
  invariant v → 0 ≤ pos ≤ size_ v → size_ v - pos < 2 ^ 31 → can_grow v →
  ∃ v1 v2, Insert d u pos (Outside x) v = Ok (pos, v1) ∧ Erase pos v1 = Ok (pos, v2)
    ∧ live v2 = live v ∧ size_ v2 = size_ v ∧ capacity_ v2 = capacity_ v1
    ∧ invariant v2.
Proof.
  intros Hinv Hpos Hint Hgrow.
  destruct (Insert_spec d u pos x v Hinv Hpos Hint Hgrow)
    as (v1 & HI & Hinv1 & Hsz1 & Hlive1 & _).
  destruct (Erase_spec pos v1 Hinv1 ltac:(lia)) as (v2 & HE & Hinv2 & Hsz2 & Hcap2 & Hlive2).
  pose proof (live_length v (invariant_in_buffer v Hinv)) as Hlen.
  exists v1, v2. do 2 (split; [done|]). split; [|split; [lia|done]].
  assert (Htake : length (take (Z.to_nat pos) (live v)) = Z.to_nat pos).
  { rewrite length_take. lia. }
  rewrite Hlive2, Hlive1.
  rewrite take_app_length' by done.
  rewrite (cons_middle x (take (Z.to_nat pos) (live v))), app_assoc.
  rewrite drop_app_length' by (rewrite length_app; simpl; lia).
  apply take_drop.
Qed.

(** X8.  On a vector that satisfies the invariant, at a live position
    with at most 2^31 elements from it to the end, [Erase] is undone by
    [Insert], at that position, of a copy of the erased element taken
    before the erasure, without reallocating: live elements, size and
    capacity are those before the erasure. *)
Theorem Erase_then_Insert pos v :
  invariant v → 0 ≤ pos < size_ v → size_ v - pos ≤ 2 ^ 31 →
  ∃ e v1 v2, At pos v = Ok e
    ∧ Erase pos v = Ok (pos, v1) ∧ Insert d u pos (Outside e) v1 = Ok (pos, v2)
    ∧ live v2 = live v ∧ size_ v2 = size_ v ∧ capacity_ v2 = capacity_ v
    ∧ invariant v2.
Proof.
  intros Hinv Hpos Hint.
  pose proof (invariant_in_buffer v Hinv) as Hbuf.
  pose proof (live_length v Hbuf) as Hlen.
  destruct (lookup_lt_is_Some_2 (live v) (Z.to_nat pos)) as [e He]; [lia|].
  destruct (Erase_spec pos v Hinv Hpos) as (v1 & HE & Hinv1 & Hsz1 & Hcap1 & Hlive1).
  pose proof Hinv as (Hs & _ & _).
  destruct (Insert_spec d u pos e v1 Hinv1) as (v2 & HI & Hinv2 & Hsz2 & Hlive2 & Hcap2);
    [lia|lia|left; lia|].
  exists e, v1, v2. split; [by rewrite At_live, He by (done || lia)|].
  do 2 (split; [done|]). split; [|split; [lia|split; [|done]]].
  - assert (Htake : length (take (Z.to_nat pos) (live v)) = Z.to_nat pos).
    { rewrite length_take. lia. }
    rewrite Hlive2, Hlive1.
    rewrite take_app_length', drop_app_length' by done.
    replace (Z.to_nat (pos + 1)) with (S (Z.to_nat pos)) by lia.
    by apply take_drop_middle.
  - rewrite Hcap2, Hcap1. destruct (Z.leb_spec (size_ v1 + 1) (capacity_ v)); [done|lia].
Qed.

(** X9.  [Erase] is defined on live positions only: on a non-empty vector,
    a position before the first element, the end position or a position
    after it has undefined behaviour (the range to move ends before it
    starts, or is moved to before the buffer); on an empty vector the
    assertion fails whatever the position. *)
Theorem Erase_outside v (pos : Z) :
  (size_ v ≤ 0 → Erase pos v = AssertFail)
  ∧ (0 < size_ v → pos < 0 ∨ size_ v ≤ pos → Erase pos v = UB).
Proof.
  split.
  - intros Hz. unfold Erase. by rewrite gtb_false.
  - intros Hsz Hpos. unfold Erase, std_move_within, end_.
    rewrite gtb_true by lia. bind_ok. cbv zeta.
    rewrite decide_False by lia. done.
Qed.

End Positions.

(** ** Construction, resizing and clearing *)

Section Building.
Context {T : Type}.
Variable d : T.
Variable u : T.
Implicit Types (l xs : list T) (x : T) (v : SimpleVector T).

(** X10.  [SimpleVector(size, value)] builds a vector of [size] copies of
    the value, with capacity equal to its size, whenever [size] elements
    can be allocated; [At] returns the value at every index below [size]. *)
Theorem SimpleVector_fill_correct (n : Z) x :
  0 ≤ n ≤ max_alloc →
  ∃ v, SimpleVector_fill u n x = Ok v ∧ invariant v
       ∧ size_ v = n ∧ capacity_ v = n
       ∧ live v = replicate (Z.to_nat n) x
       ∧ ∀ i, 0 ≤ i < n → At i v = Ok x.
Proof.
  intros Hn. eexists. split; [by apply SimpleVector_fill_spec|].
  split; [|split; [done|split; [done|]]].
  - unfold invariant, max_alloc, SIZE_MAX in *. cbn [items_ size_ capacity_].
    rewrite length_replicate. lia.
  - rewrite live_mk, take_ge by (rewrite length_replicate; lia).
    split; [done|]. intros i Hi. rewrite At_live.
    + rewrite live_mk, take_ge by (rewrite length_replicate; lia).
      rewrite lookup_replicate_2 by lia. done.
    + unfold in_buffer. cbn [items_ size_]. rewrite length_replicate. lia.
    + lia.
Qed.

(** X11.  [SimpleVector(std::initializer_list)] builds a vector that holds
    the list: its size and capacity are the length of the list, and [At]
    returns the list's element at every index of the list and throws at
    every other index. *)
Theorem SimpleVector_init_correct xs :
  Z.of_nat (length xs) ≤ max_alloc →
  ∃ v, SimpleVector_init u xs = Ok v ∧ invariant v
       ∧ size_ v = Z.of_nat (length xs) ∧ capacity_ v = Z.of_nat (length xs)
       ∧ live v = xs
       ∧ ∀ i, 0 ≤ i →
           At i v = match xs !! Z.to_nat i with Some x => Ok x | None => OutOfRange end.
Proof.
  intros Hn. eexists. split; [by apply SimpleVector_init_spec|].
  assert (Hlive : live {| items_ := xs; size_ := Z.of_nat (length xs);
                          capacity_ := Z.of_nat (length xs) |} = xs).
  { rewrite live_mk, Nat2Z.id. by apply take_ge. }
  split; [|split; [done|split; [done|split; [done|]]]].
  - unfold invariant, max_alloc, SIZE_MAX in *. cbn [items_ size_ capacity_]. lia.
  - intros i Hi. rewrite At_live, Hlive; [done| |done].
    unfold in_buffer. cbn [items_ size_]. lia.
Qed.

(** X12.  The copy constructor builds a buffer of exactly [size] slots
    holding the live elements of the source, and records the source's size
    and capacity: the copy satisfies the invariant exactly when the source
    is full. *)
Theorem SimpleVector_copy_exact v :
  invariant v → size_ v ≤ max_alloc →
  ∃ t, SimpleVector_copy d u v = Ok t
       ∧ live t = live v ∧ size_ t = size_ v ∧ capacity_ t = capacity_ v
       ∧ Z.of_nat (length (items_ t)) = size_ v
       ∧ (invariant t ↔ size_ v = capacity_ v).
Proof.
  intros Hinv Hn. pose proof (invariant_in_buffer v Hinv) as Hbuf.
  pose proof (live_length v Hbuf) as Hlen. destruct Hinv as (Hs & Hmax & Hcap).
  eexists. split; [by apply SimpleVector_copy_spec|].
  rewrite live_mk. cbn [items_ size_ capacity_]. unfold invariant.
  cbn [items_ size_ capacity_]. split; [|split; [done|split; [done|split; [done|]]]].
  - apply take_ge. lia.
  - split; [lia|]. intros Hfull. lia.
Qed.

(** X13.  Shrinking with [Resize] and growing back within the capacity does
    not bring the dropped elements back: the slots that reappear hold
    [Type()]. *)
Theorem Resize_shrink_grow (m n : Z) v :
  invariant v → 0 ≤ m ≤ size_ v → m ≤ n ≤ capacity_ v →
  ∃ v', (v1 ← Resize d u m v; Resize d u n v1) = Ok v'
        ∧ live v' = take (Z.to_nat m) (live v) ++ replicate (Z.to_nat (n - m)) d
        ∧ size_ v' = n ∧ capacity_ v' = capacity_ v ∧ invariant v'.
Proof.
  intros Hinv Hm Hn. pose proof Hinv as (Hs & Hmax & Hcap).
  rewrite Resize_shrink by lia. bind_ok.
  set (v1 := {| items_ := items_ v; size_ := m; capacity_ := capacity_ v |}).
  assert (Hinv1 : invariant v1) by (unfold invariant, v1; cbn [items_ size_ capacity_]; lia).
  assert (Hlive1 : live v1 = take (Z.to_nat m) (live v)).
  { unfold v1, live. cbn [items_ size_]. rewrite take_take. f_equal. lia. }
  destruct (Z.eq_dec m n) as [<-|Hne].
  - exists v1. rewrite Resize_shrink by (unfold v1; cbn [size_]; lia).
    rewrite Z.sub_diag, app_nil_r. done.
  - destruct (Resize_extend d u n v1 Hinv1) as (v' & HR & Hinv' & Hsz' & Hlive' & Hcap');
      [unfold v1; cbn [size_]; lia|left; unfold v1; cbn [capacity_]; lia|].
    exists v'. split; [done|]. rewrite Hlive', Hlive1.
    unfold v1 in Hcap' |- *. cbn [size_ capacity_] in *.
    destruct (Z.leb_spec n (capacity_ v)); [done|lia].
Qed.

(** X14.  [Clear] on a vector that satisfies the invariant empties it and
    keeps its buffer and its capacity: every checked access throws, and the
    next [PushBack], of a value that is not stored in the vector itself,
    yields the vector of that one element.  That [PushBack] does not
    reallocate when the capacity is not 0: the capacity is unchanged and
    the element is written into the first slot of the kept buffer.  When
    the capacity is 0 there is no buffer to keep, and it allocates one
    slot. *)
Theorem Clear_keeps_capacity x v :
  invariant v →
  invariant (Clear v) ∧ size_ (Clear v) = 0 ∧ capacity_ (Clear v) = capacity_ v
  ∧ items_ (Clear v) = items_ v
  ∧ (∀ i, 0 ≤ i → At i (Clear v) = OutOfRange)
  ∧ ∃ v', PushBack d u (Outside x) (Clear v) = Ok v' ∧ live v' = [x]
          ∧ size_ v' = 1
          ∧ capacity_ v' = (if capacity_ v =? 0 then 1 else capacity_ v)
          ∧ (capacity_ v ≠ 0 → items_ v' = x :: drop 1 (items_ v)).
Proof.
  intros Hinv. pose proof (Clear_invariant v Hinv) as HinvC.
  pose proof Hinv as (Hs & Hmax & Hlen).
  do 4 (split; [done|]). split.
  - intros i Hi. apply At_out_of_range. simpl. lia.
  - assert (Hgrow : can_grow (Clear v)).
    { unfold can_grow. cbn [Clear size_ capacity_].
      destruct (Z.eq_dec (capacity_ v) 0) as [->|Hne]; [right|left; lia].
      vm_compute. discriminate. }
    destruct (PushBack_spec d u x (Clear v) HinvC Hgrow)
      as (v' & HP & _ & Hsz & Hlive & Hcap').
    exists v'. split; [done|]. split; [by rewrite Hlive|]. split; [by rewrite Hsz|].
    split.
    + rewrite Hcap'. cbn [Clear size_ capacity_].
      destruct (Z.leb_spec (0 + 1) (capacity_ v)), (Z.eqb_spec (capacity_ v) 0);
        try done; try lia.
      subst. by replace (capacity_ v) with 0 by lia.
    + intros Hne. unfold PushBack in HP. cbn [Clear size_ capacity_] in HP.
      change (wrap (0 + 1)) with 1 in HP.
      rewrite (Resize_within d u 1 _ HinvC) in HP by (cbn [Clear size_ capacity_]; lia).
      revert HP. bind_ok. cbn [read_reference]. bind_ok.
      cbn [items_ size_ capacity_ Clear end_ live]. cbn [Z.to_nat take replicate app].
      change (1 - 0) with 1. change (Z.to_nat 1) with 1%nat. cbn [replicate app].
      change (1 - 1) with 0.
      rewrite (assign_at_middle [] (drop 1 (items_ v)) d x) by done. bind_ok.
      by intros [= <-].
Qed.

(** Starting from the null buffer the loop of [Resize] only meets the
    capacities 0, 1, 2, 4, ..., 2^63. *)
Lemma orbit_zero_bounded k : orbit k 0 ≤ 2 ^ 63.
Proof.
  destruct (orbit_bounded 0 ltac:(unfold SIZE_MAX; lia) k) as (j & Hj & ->).
  assert (Hall : forallb (λ j, orbit j 0 <=? 2 ^ 63) (seq 0 130) = true)
    by (vm_compute; reflexivity).
  rewrite forallb_forall in Hall. apply Z.leb_le, Hall, in_seq. lia.
Qed.

(** X15.  [Resize] of a default-constructed vector to more than 2^63
    elements never returns: the capacity doubles up to 2^63, wraps to 0 and
    starts again. *)
Theorem Resize_empty_diverges (n : Z) :
  2 ^ 63 < n → Resize d u n SimpleVector_default = Diverges.
Proof.
  intros Hn. unfold Resize. cbn [size_ capacity_ SimpleVector_default].
  rewrite !gtb_true by lia.
  assert (grow_capacity n 0 = Diverges) as ->; [|done].
  apply grow_loop_Diverges. intros j _. pose proof (orbit_zero_bounded j). lia.
Qed.

End Building.

(** ** Swapping and comparing *)

Section Comparing.
Context {T : Type}.
Variable d : T.
Variable u : T.
Variable Type_eq : T → T → bool.
Variable Type_lt : T → T → bool.
Implicit Types (l m : list T) (x y : T) (a b v : SimpleVector T)
               (σ : gmap nat (SimpleVector T)).

(** X16.  [swap] exchanges the two vectors and touches no other object;
    swapping again restores the store.  Swapping an object with itself
    changes nothing. *)
Theorem swap_exchanges (this other : addr) σ a b :
  σ !! this = Some a → σ !! other = Some b →
  ∃ σ', swap this other σ = Ok σ'
    ∧ σ' !! this = Some b ∧ σ' !! other = Some a
    ∧ (∀ c, c ≠ this → c ≠ other → σ' !! c = σ !! c)
    ∧ swap this other σ' = Ok σ
    ∧ (this = other → σ' = σ).
Proof.
  intros Ha Hb. unfold swap, object. rewrite Ha, Hb. bind_ok.
  eexists. split; [done|].
  assert (Hthis : <[other:=a]> (<[this:=b]> σ) !! this = Some b).
  { destruct (decide (other = this)) as [->|Hne].
    - rewrite lookup_insert_eq. congruence.
    - by rewrite lookup_insert_ne, lookup_insert_eq. }
  assert (Hback : <[other:=b]> (<[this:=a]> (<[other:=a]> (<[this:=b]> σ))) = σ).
  { apply map_eq. intros c.
    destruct (decide (c = other)) as [->|Hco]; [by rewrite lookup_insert_eq|].
    rewrite lookup_insert_ne by done.
    destruct (decide (c = this)) as [->|Hct]; [by rewrite lookup_insert_eq|].
    by rewrite !lookup_insert_ne. }
  split; [done|]. split; [by rewrite lookup_insert_eq|]. split; [|split].
  - intros c Hct Hco. by rewrite !lookup_insert_ne.
  - rewrite Hthis, lookup_insert_eq. bind_ok. by rewrite Hback.
  - intros ->. assert (a = b) as -> by congruence.
    rewrite insert_insert_eq. by apply insert_id.
Qed.

Lemma equal_loop_sym n : ∀ (la lb : list T) i j,
  (∀ x y, Type_eq x y = Type_eq y x) →
  equal_loop Type_eq n la i lb j = equal_loop Type_eq n lb j la i.
Proof.
  induction n as [|n IH]; intros la lb i j Hsym; [done|]. cbn [equal_loop].
  unfold load. destruct (la !! i) as [x|], (lb !! j) as [y|]; try done.
  bind_ok. rewrite (Hsym x y). destruct (Type_eq y x); [by apply IH|done].
Qed.

(** X17.  [operator==] is symmetric whenever [operator==] of the elements
    is, failures included. *)
Theorem op_eq_symmetric (lhs rhs : addr) σ :
  (∀ x y, Type_eq x y = Type_eq y x) →
  op_eq Type_eq lhs rhs σ = op_eq Type_eq rhs lhs σ.
Proof.
  intros Hsym. unfold op_eq.
  destruct (decide (lhs = rhs)) as [->|Hne]; [by rewrite decide_True|].
  rewrite decide_False by done. unfold object, GetSize, std_equal, begin_, end_.
  destruct (σ !! lhs) as [a|], (σ !! rhs) as [b|]; try done. bind_ok.
  rewrite (Z.eqb_sym (size_ b)).
  destruct (Z.eqb_spec (size_ a) (size_ b)) as [Heq|]; [|done].
  rewrite Heq. destruct (decide _); [|done]. by apply equal_loop_sym.
Qed.

Lemma equal_loop_spec m1 : ∀ m2 p1 p3 q1 q3,
  length m1 = length m2 →
  ∃ res, equal_loop Type_eq (length m1) (p1 ++ m1 ++ p3) (length p1)
                    (q1 ++ m2 ++ q3) (length q1) = Ok res
         ∧ (res = true ↔ Forall2 (λ x y, Type_eq x y = true) m1 m2).
Proof.
  induction m1 as [|x m1 IH]; intros m2 p1 p3 q1 q3 Hlen.
  - destruct m2; [|done]. exists true. split; [done|]. split; [constructor|done].
  - destruct m2 as [|y m2]; [done|]. cbn [length equal_loop app].
    rewrite !load_middle. bind_ok.
    destruct (Type_eq x y) eqn:Hxy.
    + destruct (IH m2 (p1 ++ [x]) p3 (q1 ++ [y]) q3) as (res & Hres & Hiff);
        [simpl in Hlen; lia|].
      rewrite !length_app, !Nat.add_1_r, <- !app_assoc in Hres.
      exists res. split; [done|]. rewrite Hiff. split.
      * intros H. by constructor.
      * intros H. by inversion H.
    + exists false. split; [done|]. split; [done|].
      intros H. inversion H. congruence.
Qed.

(** [operator==] on two objects whose live elements lie in their buffers. *)
Lemma op_eq_spec (lhs rhs : addr) σ a b :
  σ !! lhs = Some a → σ !! rhs = Some b → in_buffer a → in_buffer b →
  ∃ res, op_eq Type_eq lhs rhs σ = Ok res
         ∧ (res = true ↔ lhs = rhs ∨ equal_contents Type_eq a b).
Proof.
  intros Ha Hb Hbufa Hbufb. unfold op_eq.
  destruct (decide (lhs = rhs)) as [->|Hne].
  { exists true. split; [done|]. split; [by left|done]. }
  unfold object. rewrite Ha, Hb. bind_ok. unfold GetSize, equal_contents.
  pose proof (live_length a Hbufa) as Hla. pose proof (live_length b Hbufb) as Hlb.
  destruct (Z.eqb_spec (size_ a) (size_ b)) as [Heq|Hneq].
  - destruct (equal_loop_spec (live a) (live b) [] (drop (Z.to_nat (size_ a)) (items_ a))
                [] (drop (Z.to_nat (size_ b)) (items_ b))) as (res & Hres & Hiff); [lia|].
    cbn [app length] in Hres. rewrite <- !items_live in Hres.
    exists res. split.
    + unfold std_equal, begin_, end_. rewrite decide_True by (unfold in_buffer in *; lia).
      rewrite Z.sub_0_r, <- Hla, Nat2Z.id. done.
    + rewrite Hiff. split; [by right|]. intros [?|[_ ?]]; done.
  - exists false. split; [done|]. split; [done|]. intros [?|[? _]]; done.
Qed.

(** X18.  When [operator==] of the elements decides equality, [operator==]
    of two vectors whose live elements lie in their buffers returns true
    exactly when their live elements are the same sequence, and
    [operator!=] returns the opposite. *)
Theorem op_eq_decides (lhs rhs : addr) σ a b :
  (∀ x y, Type_eq x y = true ↔ x = y) →
  σ !! lhs = Some a → σ !! rhs = Some b → in_buffer a → in_buffer b →
  ∃ res, op_eq Type_eq lhs rhs σ = Ok res
         ∧ op_ne Type_eq lhs rhs σ = Ok (negb res)
         ∧ (res = true ↔ live a = live b).
Proof.
  intros Hdec Ha Hb Hbufa Hbufb.
  destruct (op_eq_spec lhs rhs σ a b Ha Hb Hbufa Hbufb) as (res & Hres & Hiff).
  exists res. split; [done|]. split; [unfold op_ne; by rewrite Hres|].
  rewrite Hiff. pose proof (live_length a Hbufa). pose proof (live_length b Hbufb).
  assert (Hall : Forall2 (λ x y, Type_eq x y = true) (live a) (live b) ↔ live a = live b).
  { rewrite list_eq_Forall2.
    split; intros H'; (eapply Forall2_impl; [exact H'|]); intros x y; apply Hdec. }
  split.
  - intros [->|[_ HF]]; [congruence|by apply Hall].
  - intros Heq. right. split; [|by apply Hall].
    apply (f_equal length) in Heq. lia.
Qed.

Lemma lex_loop_spec m1 : ∀ m2 p1 p3 q1 q3,
  lex_loop Type_lt (length m1) (p1 ++ m1 ++ p3) (length p1)
           (length m2) (q1 ++ m2 ++ q3) (length q1)
  = Ok (lex_lt Type_lt m1 m2).
Proof.
  induction m1 as [|x m1 IH]; intros m2 p1 p3 q1 q3.
  - by destruct m2.
  - destruct m2 as [|y m2]; [done|]. cbn [length lex_loop lex_lt app].
    rewrite !load_middle. bind_ok.
    destruct (Type_lt x y); [done|]. destruct (Type_lt y x); [done|].
    specialize (IH m2 (p1 ++ [x]) p3 (q1 ++ [y]) q3).
    by rewrite !length_app, !Nat.add_1_r, <- !app_assoc in IH.
Qed.

Lemma op_lt_spec (lhs rhs : addr) σ a b :
  σ !! lhs = Some a → σ !! rhs = Some b → in_buffer a → in_buffer b →
  op_lt Type_lt lhs rhs σ = Ok (lex_lt Type_lt (live a) (live b)).
Proof.
  intros Ha Hb Hbufa Hbufb. unfold op_lt, object. rewrite Ha, Hb. bind_ok.
  pose proof (live_length a Hbufa) as Hla. pose proof (live_length b Hbufb) as Hlb.
  unfold std_lexicographical_compare, begin_, end_.
  rewrite decide_True by (unfold in_buffer in *; lia).
  rewrite !Z.sub_0_r, <- Hla, <- Hlb, !Nat2Z.id.
  pose proof (lex_loop_spec (live a) (live b) [] (drop (Z.to_nat (size_ a)) (items_ a))
                [] (drop (Z.to_nat (size_ b)) (items_ b))) as H.
  cbn [app length] in H. by rewrite <- !items_live in H.
Qed.

(** X19.  On two vectors whose live elements lie in their buffers,
    [operator<] is the lexicographic order of the live elements under
    [operator<] of the elements, [operator>] is the same order with the
    operands exchanged, and [operator>=] and [operator<=] are their
    negations. *)
Theorem relational_operators (lhs rhs : addr) σ a b :
  σ !! lhs = Some a → σ !! rhs = Some b → in_buffer a → in_buffer b →
  op_lt Type_lt lhs rhs σ = Ok (lex_lt Type_lt (live a) (live b))
  ∧ op_gt Type_lt lhs rhs σ = Ok (lex_lt Type_lt (live b) (live a))
  ∧ op_ge Type_lt lhs rhs σ = Ok (negb (lex_lt Type_lt (live a) (live b)))
  ∧ op_le Type_lt lhs rhs σ = Ok (negb (lex_lt Type_lt (live b) (live a))).
Proof.
  intros Ha Hb Hbufa Hbufb. unfold op_gt, op_le, op_ge.
  rewrite (op_lt_spec lhs rhs σ a b), (op_lt_spec rhs lhs σ b a) by done. done.
Qed.

Lemma lex_lt_irrefl l : (∀ x, Type_lt x x = false) → lex_lt Type_lt l l = false.
Proof. intros Hirr. induction l as [|x l IH]; [done|]. simpl. by rewrite Hirr. Qed.

Lemma lex_lt_prefix l y m :
  (∀ x, Type_lt x x = false) → lex_lt Type_lt l (l ++ y :: m) = true.
Proof. intros Hirr. induction l as [|x l IH]; [done|]. simpl. by rewrite Hirr. Qed.

(** X20.  When no element is less than itself, no vector is less than
    itself or than an equal sequence, and a vector whose live elements are
    a proper prefix of another's is less than it (so the empty vector is
    less than every non-empty one). *)
Theorem op_lt_prefix (lhs rhs : addr) σ a b :
  (∀ x, Type_lt x x = false) →
  σ !! lhs = Some a → σ !! rhs = Some b → in_buffer a → in_buffer b →
  (live a = live b →
     op_lt Type_lt lhs rhs σ = Ok false ∧ op_le Type_lt lhs rhs σ = Ok true
     ∧ op_ge Type_lt lhs rhs σ = Ok true ∧ op_gt Type_lt lhs rhs σ = Ok false)
  ∧ (∀ y m, live b = live a ++ y :: m →
       op_lt Type_lt lhs rhs σ = Ok true ∧ op_ge Type_lt lhs rhs σ = Ok false).
Proof.
  intros Hirr Ha Hb Hbufa Hbufb. unfold op_gt, op_le, op_ge.
  rewrite (op_lt_spec lhs rhs σ a b), (op_lt_spec rhs lhs σ b a) by done.
  split.
  - intros ->. by rewrite lex_lt_irrefl.
  - intros y m ->. by rewrite lex_lt_prefix.
Qed.

End Comparing.

(** ** Assignment between different vectors *)

Section Assigning.
Context {T : Type}.
Variable d : T.
Variable u : T.
Variable Type_eq : T → T → bool.
Implicit Types (l m : list T) (x y : T) (a b v : SimpleVector T)
               (σ : gmap nat (SimpleVector T)).

Lemma op_eq_differ (this rhs : addr) σ a b :
  σ !! this = Some a → σ !! rhs = Some b → in_buffer a → in_buffer b →
  this ≠ rhs → ¬ equal_contents Type_eq a b →
  op_eq Type_eq this rhs σ = Ok false.
Proof.
  intros Ha Hb Hbufa Hbufb Hne Hdiff.
  destruct (op_eq_spec Type_eq this rhs σ a b Ha Hb Hbufa Hbufb) as ([] & Hres & Hiff);
    [|done].
  destruct (proj1 Hiff eq_refl); done.
Qed.

(** X21.  Copy assignment between two different objects whose contents
    differ completes: the target takes the live elements, size and capacity
    of the source, the source and every other object are untouched.  When
    every element equals itself the two then compare equal, so assigning
    the same source once more fails the assertion. *)
Theorem assign_copy_copies (this rhs : addr) σ a b :
  σ !! this = Some a → σ !! rhs = Some b → in_buffer a → in_buffer b →
  size_ b ≤ max_alloc → this ≠ rhs → ¬ equal_contents Type_eq a b →
  ∃ σ' t, assign_copy d u Type_eq this rhs σ = Ok σ'
    ∧ σ' = <[this := t]> σ
    ∧ live t = live b ∧ size_ t = size_ b ∧ capacity_ t = capacity_ b
    ∧ σ' !! rhs = Some b
    ∧ ((∀ x, Type_eq x x = true) →
         op_eq Type_eq this rhs σ' = Ok true
         ∧ assign_copy d u Type_eq this rhs σ' = AssertFail).
Proof.
  intros Ha Hb Hbufa Hbufb Hn Hne Hdiff.
  pose proof (live_length b Hbufb) as Hlb.
  set (t := {| items_ := live b; size_ := size_ b; capacity_ := capacity_ b |}).
  assert (Hlive : live t = live b).
  { unfold t. rewrite live_mk. apply take_ge. lia. }
  exists (<[this := t]> σ), t.
  assert (Hrhs : <[this := t]> σ !! rhs = Some b) by (by rewrite lookup_insert_ne).
  split; [|do 5 (split; [done|])].
  - unfold assign_copy, op_ne. rewrite (op_eq_differ this rhs σ a b Ha Hb Hbufa Hbufb Hne Hdiff). bind_ok.
    cbn [negb assert]. bind_ok. unfold object. rewrite Hb, Ha. bind_ok.
    rewrite SimpleVector_copy_spec by done. done.
  - intros Hrefl.
    assert (op_eq Type_eq this rhs (<[this := t]> σ) = Ok true) as Heq.
    { apply (op_eq_equal_contents Type_eq this rhs _ t b); try done.
      - by rewrite lookup_insert_eq.
      - unfold in_buffer, t. cbn [items_ size_]. unfold in_buffer in Hbufb. lia.
      - split; [done|]. rewrite Hlive. apply Forall_Forall2_diag, Forall_forall.
        intros x _. apply Hrefl. }
    split; [done|]. by apply assign_copy_asserts.
Qed.

(** X22.  Move assignment between two different objects whose contents
    differ completes: the target is resized to the size of the source and
    takes its live elements, keeping its own buffer when that is large
    enough and a buffer of the doubled capacity otherwise; the source keeps
    its size and its capacity. *)
Theorem assign_move_moves (this rhs : addr) σ a b :
  σ !! this = Some a → σ !! rhs = Some b → invariant a → in_buffer b →
  size_ b ≤ capacity_ a ∨ doubled_capacity (size_ b) (capacity_ a) ≤ max_alloc →
  this ≠ rhs → ¬ equal_contents Type_eq a b →
  ∃ σ' t b', assign_move d u Type_eq this rhs σ = Ok σ'
    ∧ σ' !! this = Some t ∧ invariant t
    ∧ live t = live b ∧ size_ t = size_ b
    ∧ capacity_ t = (if size_ b <=? capacity_ a then capacity_ a
                     else doubled_capacity (size_ b) (capacity_ a))
    ∧ σ' !! rhs = Some b' ∧ size_ b' = size_ b ∧ capacity_ b' = capacity_ b
    ∧ (∀ c, c ≠ this → c ≠ rhs → σ' !! c = σ !! c).
Proof.
  intros Ha Hb Hinv Hbufb Halloc Hne Hdiff.
  pose proof (invariant_in_buffer a Hinv) as Hbufa.
  pose proof (live_length b Hbufb) as Hlb. pose proof Hinv as (Hs & Hmax & Hlen).
  assert (∃ a1, Resize d u (size_ b) a = Ok a1 ∧ invariant a1 ∧ size_ a1 = size_ b
                ∧ capacity_ a1 = (if size_ b <=? capacity_ a then capacity_ a
                                  else doubled_capacity (size_ b) (capacity_ a)))
    as (a1 & HR & Hinv1 & Hsz1 & Hcap1).
  { destruct (Z.le_gt_cases (size_ b) (size_ a)) as [Hle|Hgt].
    - eexists. split; [by apply Resize_shrink|]. unfold invariant, in_buffer in *.
      cbn [items_ size_ capacity_]. split; [lia|]. split; [done|].
      destruct (Z.leb_spec (size_ b) (capacity_ a)); [done|lia].
    - destruct (Resize_extend d u (size_ b) a Hinv Hgt Halloc) as (a1 & ? & ? & ? & _ & ?).
      by exists a1. }
  destruct Hinv1 as (Hs1 & Hmax1 & Hlen1).
  set (t := {| items_ := live b ++ drop (Z.to_nat (size_ b)) (items_ a1);
               size_ := size_ a1; capacity_ := capacity_ a1 |}).
  assert (Hinvt : invariant t).
  { unfold invariant, t. cbn [items_ size_ capacity_].
    rewrite length_app, length_drop. lia. }
  assert (Hlivet : live t = live b).
  { unfold t. rewrite live_mk, Hsz1. apply take_app_length'. lia. }
  exists (<[this := t]> σ), t, b. split.
  { unfold assign_move, op_ne. rewrite (op_eq_differ this rhs σ a b Ha Hb Hbufa Hbufb Hne Hdiff). bind_ok.
    cbn [negb assert]. bind_ok. unfold object, GetSize. rewrite Hb, Ha. bind_ok.
    rewrite HR. bind_ok. cbv zeta.
    rewrite (lookup_insert_ne _ this rhs) by done. rewrite Hb. bind_ok.
    rewrite lookup_insert_eq. bind_ok.
    rewrite decide_False by done. unfold begin_, end_.
    rewrite (std_move_spec _ _ _ _ _ [] (live b) (drop (Z.to_nat (size_ b)) (items_ b))
               [] (take (Z.to_nat (size_ b)) (items_ a1))
               (drop (Z.to_nat (size_ b)) (items_ a1)));
      [| apply items_live | by rewrite take_drop | done | lia | done
       | rewrite length_take; lia ].
    bind_ok. cbn [app]. by rewrite insert_insert_eq. }
  split; [by rewrite lookup_insert_eq|]. do 4 (split; [done|]).
  split; [by rewrite lookup_insert_ne|]. do 2 (split; [done|]).
  intros c Hct Hcr. by rewrite lookup_insert_ne.
Qed.

End Assigning.

(** ** The further properties on concrete vectors *)

Lemma can_grow_v123 : can_grow v123.
Proof. right. vm_compute. discriminate. Qed.

Lemma invariant_v124 : invariant v124.
Proof. unfold invariant, SIZE_MAX. simpl. lia. Qed.

Lemma v124_differs : ¬ equal_contents Z.eqb v124 v123_reserved.
Proof.
  intros [_ H]. unfold live in H. simpl in H.
  do 2 (apply Forall2_cons_1 in H as [_ H]). apply Forall2_cons_1 in H as [H _].
  discriminate H.
Qed.

Lemma PushBack_appends_witness :
  (∃ v', PushBack 0 int_new (Outside 4) v123 = Ok v' ∧ invariant v'
         ∧ size_ v' = 4 ∧ live v' = [1; 2; 3; 4] ∧ capacity_ v' = 6)
  ∧ PushBack 0 int_new (Slot 0) v123 = UB.
Proof.
  split.
  - apply (proj1 (PushBack_appends 0 int_new 4 v123 invariant_v123 can_grow_v123)).
  - apply (proj2 (PushBack_appends 0 int_new 4 v123 invariant_v123 can_grow_v123)).
    reflexivity.
Defined.

Lemma PushBack_PopBack_witness :
  PopBack (@SimpleVector_default Z) = AssertFail
  ∧ ∃ v1 v2, PushBack 0 int_new (Outside 4) v123 = Ok v1 ∧ PopBack v1 = Ok v2
      ∧ size_ v2 = 3 ∧ live v2 = [1; 2; 3]
      ∧ capacity_ v2 = capacity_ v1 ∧ invariant v2.
Proof.
  split.
  - apply (proj1 (PushBack_PopBack 0 int_new 4 SimpleVector_default)). simpl. lia.
  - apply (proj2 (PushBack_PopBack 0 int_new 4 v123) invariant_v123 can_grow_v123).
Defined.

Lemma PushBack_all_from_empty_witness :
  ∃ v, PushBack_all 0 int_new [1; 2; 3; 4; 5] SimpleVector_default = Ok v ∧ invariant v
       ∧ live v = [1; 2; 3; 4; 5] ∧ size_ v = 5 ∧ capacity_ v = 8.
Proof.
  apply (PushBack_all_from_empty 0 int_new [1; 2; 3; 4; 5]).
  - discriminate.
  - vm_compute. discriminate.
Defined.

Lemma reserved_then_PushBack_all_witness :
  ∃ v0 v, SimpleVector_reserved 0 int_new 5 = Ok v0
      ∧ invariant v0 ∧ size_ v0 = 0 ∧ capacity_ v0 = 5
      ∧ PushBack_all 0 int_new [1; 2; 3] v0 = Ok v
      ∧ invariant v ∧ live v = [1; 2; 3] ∧ capacity_ v = 5.
Proof.
  apply (reserved_then_PushBack_all 0 int_new 5 [1; 2; 3]).
  - unfold max_alloc. lia.
  - simpl. lia.
Defined.

Lemma Insert_shifts_witness :
  (∃ v', Insert 0 int_new 1 (Outside 9) v123 = Ok (1, v') ∧ invariant v'
     ∧ size_ v' = 3 + 1
     ∧ At 1 v' = Ok 9
     ∧ (∀ i, 0 ≤ i < 1 → At i v' = At i v123)
     ∧ (∀ i, 1 ≤ i < 3 → At (i + 1) v' = At i v123))
  ∧ Insert 0 int_new 0 (Slot 2) v123 = UB.
Proof.
  split.
  - apply (proj1 (Insert_shifts 0 int_new 1 9 v123 invariant_v123
                    ltac:(simpl; lia) ltac:(simpl; lia) can_grow_v123)).
  - apply (proj2 (Insert_shifts 0 int_new 0 9 v123 invariant_v123
                    ltac:(simpl; lia) ltac:(simpl; lia) can_grow_v123)).
    reflexivity.
Defined.

Lemma Insert_at_end_is_PushBack_witness :
  Insert 0 int_new 3 (Outside 9) v123 = (v' ← PushBack 0 int_new (Outside 9) v123; Ok (3, v'))
  ∧ Insert 0 int_new 3 (Slot 0) v123_reserved
    = (v' ← PushBack 0 int_new (Slot 0) v123_reserved; Ok (3, v')).
Proof.
  split.
  - apply (Insert_at_end_is_PushBack 0 int_new (Outside 9) v123). unfold SIZE_MAX. simpl. lia.
  - apply (Insert_at_end_is_PushBack 0 int_new (Slot 0) v123_reserved).
    unfold SIZE_MAX. simpl. lia.
Defined.

Lemma Insert_then_Erase_witness :
  ∃ v1 v2, Insert 0 int_new 1 (Outside 9) v123 = Ok (1, v1) ∧ Erase 1 v1 = Ok (1, v2)
    ∧ live v2 = [1; 2; 3] ∧ size_ v2 = 3 ∧ capacity_ v2 = capacity_ v1
    ∧ invariant v2.
Proof.
  apply (Insert_then_Erase 0 int_new 1 9 v123 invariant_v123); [simpl; lia..|apply can_grow_v123].
Defined.

Lemma Erase_then_Insert_witness :
  ∃ e v1 v2, At 1 v123 = Ok e
    ∧ Erase 1 v123 = Ok (1, v1) ∧ Insert 0 int_new 1 (Outside e) v1 = Ok (1, v2)
    ∧ live v2 = [1; 2; 3] ∧ size_ v2 = 3 ∧ capacity_ v2 = 3
    ∧ invariant v2.
Proof. apply (Erase_then_Insert 0 int_new 1 v123 invariant_v123); simpl; lia. Defined.

Lemma Erase_outside_witness :
  Erase 3 v123 = UB ∧ Erase (-1) v123 = UB ∧ Erase 0 (@SimpleVector_default Z) = AssertFail.
Proof.
  split; [|split].
  - apply (proj2 (Erase_outside v123 3)); simpl; lia.
  - apply (proj2 (Erase_outside v123 (-1))); simpl; lia.
  - apply (proj1 (Erase_outside SimpleVector_default 0)). simpl. lia.
Defined.

Lemma SimpleVector_fill_correct_witness :
  ∃ v, SimpleVector_fill int_new 3 5 = Ok v ∧ invariant v
       ∧ size_ v = 3 ∧ capacity_ v = 3
       ∧ live v = [5; 5; 5]
       ∧ ∀ i, 0 ≤ i < 3 → At i v = Ok 5.
Proof. apply (SimpleVector_fill_correct int_new 3 5). unfold max_alloc. lia. Defined.

Lemma SimpleVector_init_correct_witness :
  ∃ v, SimpleVector_init int_new [1; 2; 3] = Ok v ∧ invariant v
       ∧ size_ v = 3 ∧ capacity_ v = 3
       ∧ live v = [1; 2; 3]
       ∧ ∀ i, 0 ≤ i →
           At i v = match [1; 2; 3] !! Z.to_nat i with
                    | Some x => Ok x | None => OutOfRange end.
Proof.
  apply (SimpleVector_init_correct int_new [1; 2; 3]). unfold max_alloc. simpl. lia.
Defined.

Lemma SimpleVector_copy_exact_witness :
  (∃ t, SimpleVector_copy 0 int_new v123_reserved = Ok t
        ∧ live t = live v123_reserved ∧ size_ t = 3 ∧ capacity_ t = 4
        ∧ Z.of_nat (length (items_ t)) = 3
        ∧ (invariant t ↔ 3 = 4))
  ∧ (∃ t, SimpleVector_copy 0 int_new v123 = Ok t
        ∧ live t = live v123 ∧ size_ t = 3 ∧ capacity_ t = 3
        ∧ Z.of_nat (length (items_ t)) = 3
        ∧ (invariant t ↔ 3 = 3)).
Proof.
  split.
  - apply (SimpleVector_copy_exact 0 int_new v123_reserved invariant_v123_reserved).
    unfold max_alloc. simpl. lia.
  - apply (SimpleVector_copy_exact 0 int_new v123 invariant_v123).
    unfold max_alloc. simpl. lia.
Defined.

Lemma Resize_shrink_grow_witness :
  ∃ v', (v1 ← Resize 0 int_new 1 v123; Resize 0 int_new 3 v1) = Ok v'
        ∧ live v' = [1; 0; 0]
        ∧ size_ v' = 3 ∧ capacity_ v' = 3 ∧ invariant v'.
Proof. apply (Resize_shrink_grow 0 int_new 1 3 v123 invariant_v123); simpl; lia. Defined.

Lemma Clear_keeps_capacity_witness :
  (invariant (Clear v123) ∧ size_ (Clear v123) = 0 ∧ capacity_ (Clear v123) = 3
   ∧ items_ (Clear v123) = [1; 2; 3]
   ∧ (∀ i, 0 ≤ i → At i (Clear v123) = OutOfRange)
   ∧ ∃ v', PushBack 0 int_new (Outside 9) (Clear v123) = Ok v' ∧ live v' = [9]
           ∧ size_ v' = 1 ∧ capacity_ v' = 3
           ∧ (3 ≠ 0 → items_ v' = [9; 2; 3]))
  ∧ ∃ v', PushBack 0 int_new (Outside 9) (Clear SimpleVector_default) = Ok v'
          ∧ live v' = [9] ∧ size_ v' = 1 ∧ capacity_ v' = 1.
Proof.
  split.
  - apply (Clear_keeps_capacity 0 int_new 9 v123 invariant_v123).
  - destruct (Clear_keeps_capacity 0 int_new 9 SimpleVector_default invariant_default)
      as (_ & _ & _ & _ & _ & v' & HP & Hlive & Hsz & Hcap & _).
    exists v'. split; [exact HP|]. split; [exact Hlive|]. split; [exact Hsz|exact Hcap].
Defined.

Lemma Resize_empty_diverges_witness :
  Resize 0 int_new (2 ^ 63 + 1) (@SimpleVector_default Z) = Diverges.
Proof. apply (Resize_empty_diverges 0 int_new (2 ^ 63 + 1)). lia. Defined.

Lemma swap_exchanges_witness :
  ∃ σ', swap 0%nat 1%nat different_objects = Ok σ'
    ∧ σ' !! 0%nat = Some v123_reserved ∧ σ' !! 1%nat = Some v124
    ∧ (∀ c, c ≠ 0%nat → c ≠ 1%nat → σ' !! c = different_objects !! c)
    ∧ swap 0%nat 1%nat σ' = Ok different_objects
    ∧ (0%nat = 1%nat → σ' = different_objects).
Proof. apply (swap_exchanges 0%nat 1%nat different_objects); reflexivity. Defined.

Lemma op_eq_symmetric_witness :
  op_eq Z.eqb 0%nat 1%nat equal_objects = op_eq Z.eqb 1%nat 0%nat equal_objects.
Proof. apply (op_eq_symmetric Z.eqb 0%nat 1%nat equal_objects). apply Z.eqb_sym. Defined.

Lemma op_eq_decides_witness :
  ∃ res, op_eq Z.eqb 0%nat 1%nat equal_objects = Ok res
         ∧ op_ne Z.eqb 0%nat 1%nat equal_objects = Ok (negb res)
         ∧ (res = true ↔ live v123 = live v123_reserved).
Proof.
  apply (op_eq_decides Z.eqb 0%nat 1%nat equal_objects v123 v123_reserved).
  - apply Z.eqb_eq.
  - reflexivity.
  - reflexivity.
  - unfold in_buffer. simpl. lia.
  - unfold in_buffer. simpl. lia.
Defined.

Lemma relational_operators_witness :
  op_lt Z.ltb 1%nat 0%nat prefix_objects = Ok (lex_lt Z.ltb [1; 2] [1; 2; 3])
  ∧ op_gt Z.ltb 1%nat 0%nat prefix_objects = Ok (lex_lt Z.ltb [1; 2; 3] [1; 2])
  ∧ op_ge Z.ltb 1%nat 0%nat prefix_objects = Ok (negb (lex_lt Z.ltb [1; 2] [1; 2; 3]))
  ∧ op_le Z.ltb 1%nat 0%nat prefix_objects = Ok (negb (lex_lt Z.ltb [1; 2; 3] [1; 2])).
Proof.
  apply (relational_operators Z.ltb 1%nat 0%nat prefix_objects v12 v123).
  - reflexivity.
  - reflexivity.
  - unfold in_buffer. simpl. lia.
  - unfold in_buffer. simpl. lia.
Defined.

Lemma op_lt_prefix_witness :
  (op_lt Z.ltb 1%nat 0%nat prefix_objects = Ok true
   ∧ op_ge Z.ltb 1%nat 0%nat prefix_objects = Ok false)
  ∧ (op_lt Z.ltb 0%nat 0%nat prefix_objects = Ok false
     ∧ op_le Z.ltb 0%nat 0%nat prefix_objects = Ok true
     ∧ op_ge Z.ltb 0%nat 0%nat prefix_objects = Ok true
     ∧ op_gt Z.ltb 0%nat 0%nat prefix_objects = Ok false).
Proof.
  split.
  - apply (proj2 (op_lt_prefix Z.ltb 1%nat 0%nat prefix_objects v12 v123
                    Z.ltb_irrefl eq_refl eq_refl
                    ltac:(unfold in_buffer; simpl; lia)
                    ltac:(unfold in_buffer; simpl; lia)) 3 []).
    reflexivity.
  - apply (proj1 (op_lt_prefix Z.ltb 0%nat 0%nat prefix_objects v123 v123
                    Z.ltb_irrefl eq_refl eq_refl
                    ltac:(unfold in_buffer; simpl; lia)
                    ltac:(unfold in_buffer; simpl; lia))).
    reflexivity.
Defined.

Lemma assign_copy_copies_witness :
  ∃ σ' t, assign_copy 0 int_new Z.eqb 0%nat 1%nat different_objects = Ok σ'
    ∧ σ' = <[0%nat := t]> different_objects
    ∧ live t = live v123_reserved ∧ size_ t = 3 ∧ capacity_ t = 4
    ∧ σ' !! 1%nat = Some v123_reserved
    ∧ ((∀ x, Z.eqb x x = true) →
         op_eq Z.eqb 0%nat 1%nat σ' = Ok true
         ∧ assign_copy 0 int_new Z.eqb 0%nat 1%nat σ' = AssertFail).
Proof.
  apply (assign_copy_copies 0 int_new Z.eqb 0%nat 1%nat different_objects v124 v123_reserved).
  - reflexivity.
  - reflexivity.
  - unfold in_buffer. simpl. lia.
  - unfold in_buffer. simpl. lia.
  - unfold max_alloc. simpl. lia.
  - discriminate.
  - apply v124_differs.
Defined.

Lemma assign_move_moves_witness :
  ∃ σ' t b', assign_move 0 int_new Z.eqb 0%nat 1%nat different_objects = Ok σ'
    ∧ σ' !! 0%nat = Some t ∧ invariant t
    ∧ live t = live v123_reserved ∧ size_ t = 3
    ∧ capacity_ t = 3
    ∧ σ' !! 1%nat = Some b' ∧ size_ b' = 3 ∧ capacity_ b' = 4
    ∧ (∀ c, c ≠ 0%nat → c ≠ 1%nat → σ' !! c = different_objects !! c).
Proof.
  apply (assign_move_moves 0 int_new Z.eqb 0%nat 1%nat different_objects v124 v123_reserved).
  - reflexivity.
  - reflexivity.
  - apply invariant_v124.
  - unfold in_buffer. simpl. lia.
  - left. simpl. lia.
  - discriminate.
  - apply v124_differs.
Defined.
